(** * The ADB packet dispatcher of ya-webadb

    A shallow embedding of [libraries/adb/src/socket/dispatcher.ts]: the
    [AdbPacketDispatcher] class with its socket table, its table of pending
    opens, the transport writer and the handlers of inbound packets.

    An [async] function is a value of type [Task]: it runs up to its next
    [await], where it stops with the state it has reached and a continuation
    that is resumed, on whatever state the dispatcher has by then, with the
    settlement of the awaited promise. *)

From Stdlib Require Import NArith Strings.Byte Strings.Ascii Strings.String Lia.
From stdpp Require Import base option list gmap sets.

Local Open Scope N_scope.

(** ** Bytes and strings *)

(** A [Uint8Array] is a list of bytes. *)
Definition byteLength (b : list byte) : N := N.of_nat (length b).

Definition byte_of_N (n : N) : byte :=
  match Byte.of_N (n mod 256) with
  | Some b => b
  | None => x00
  end.

(** A JavaScript string is its sequence of UTF-16 code units. *)
Definition jsstring : Type := list N.

(** The code units of an ASCII literal. *)
Fixpoint js (s : string) : jsstring :=
  match s with
  | EmptyString => []
  | String c rest => N_of_ascii c :: js rest
  end.

Definition is_high_surrogate (u : N) : bool := (0xD800 <=? u) && (u <=? 0xDBFF).
Definition is_low_surrogate (u : N) : bool := (0xDC00 <=? u) && (u <=? 0xDFFF).

(** The scalar values of a string: a surrogate pair is one value, a lone
    surrogate is U+FFFD. *)
Fixpoint scalar_values (s : jsstring) : list N :=
  match s with
  | [] => []
  | u :: rest =>
      if is_high_surrogate u then
        match rest with
        | v :: rest' =>
            if is_low_surrogate v
            then (0x10000 + (u - 0xD800) * 0x400 + (v - 0xDC00)) :: scalar_values rest'
            else 0xFFFD :: scalar_values rest
        | [] => [0xFFFD]
        end
      else if is_low_surrogate u then 0xFFFD :: scalar_values rest
      else u :: scalar_values rest
  end.

Definition utf8_of_scalar (c : N) : list N :=
  if c <? 0x80 then [c]
  else if c <? 0x800 then
    [N.lor 0xC0 (N.shiftr c 6); N.lor 0x80 (N.land c 0x3F)]
  else if c <? 0x10000 then
    [N.lor 0xE0 (N.shiftr c 12);
     N.lor 0x80 (N.land (N.shiftr c 6) 0x3F);
     N.lor 0x80 (N.land c 0x3F)]
  else
    [N.lor 0xF0 (N.shiftr c 18);
     N.lor 0x80 (N.land (N.shiftr c 12) 0x3F);
     N.lor 0x80 (N.land (N.shiftr c 6) 0x3F);
     N.lor 0x80 (N.land c 0x3F)].

(** Modelled from the spec: [encodeUtf8] of [utils/index.js] is not among the
    sources; the spec has service strings travel as the payload of [OPEN], and
    the name says how: the UTF-8 encoding of the string. *)
Definition encodeUtf8 (s : jsstring) : list byte :=
  byte_of_N <$> (scalar_values s ≫= utf8_of_scalar).

Record Utf8Decoder : Type := {
  code_point : N;
  bytes_seen : N;
  bytes_needed : N;
  lower_boundary : N;
  upper_boundary : N;
}.

Definition utf8_start : Utf8Decoder :=
  {| code_point := 0; bytes_seen := 0; bytes_needed := 0;
     lower_boundary := 0x80; upper_boundary := 0xBF |}.

(** A byte read when no sequence is open. *)
Definition utf8_lead (b : N) : Utf8Decoder * list N :=
  if b <=? 0x7F then (utf8_start, [b])
  else if (0xC2 <=? b) && (b <=? 0xDF) then
    ({| code_point := N.land b 0x1F; bytes_seen := 0; bytes_needed := 1;
        lower_boundary := 0x80; upper_boundary := 0xBF |}, [])
  else if (0xE0 <=? b) && (b <=? 0xEF) then
    ({| code_point := N.land b 0xF; bytes_seen := 0; bytes_needed := 2;
        lower_boundary := if b =? 0xE0 then 0xA0 else 0x80;
        upper_boundary := if b =? 0xED then 0x9F else 0xBF |}, [])
  else if (0xF0 <=? b) && (b <=? 0xF4) then
    ({| code_point := N.land b 0x7; bytes_seen := 0; bytes_needed := 3;
        lower_boundary := if b =? 0xF0 then 0x90 else 0x80;
        upper_boundary := if b =? 0xF4 then 0x8F else 0xBF |}, [])
  else (utf8_start, [0xFFFD]).

Definition utf8_step (d : Utf8Decoder) (b : N) : Utf8Decoder * list N :=
  if bytes_needed d =? 0 then utf8_lead b
  else if (b <? lower_boundary d) || (upper_boundary d <? b) then
    let '(d', out) := utf8_lead b in (d', 0xFFFD :: out)
  else
    let c := N.lor (N.shiftl (code_point d) 6) (N.land b 0x3F) in
    if bytes_seen d + 1 =? bytes_needed d then (utf8_start, [c])
    else ({| code_point := c; bytes_seen := bytes_seen d + 1;
             bytes_needed := bytes_needed d;
             lower_boundary := 0x80; upper_boundary := 0xBF |}, []).

Fixpoint utf8_run (d : Utf8Decoder) (bytes : list N) : list N :=
  match bytes with
  | [] => if bytes_needed d =? 0 then [] else [0xFFFD]
  | b :: rest => let '(d', out) := utf8_step d b in out ++ utf8_run d' rest
  end.

Definition utf16_of_scalar (c : N) : list N :=
  if c <? 0x10000 then [c]
  else [0xD800 + N.shiftr (c - 0x10000) 10; 0xDC00 + N.land (c - 0x10000) 0x3FF].

(** Modelled from the spec: [decodeUtf8] of [utils/index.js] is not among the
    sources; the spec says of the payload of [OPEN] that it is decoded as
    UTF-8. Ill-formed input decodes to U+FFFD. The decoder leaves every
    character of well-formed input in place, U+0000 included. *)
Definition decodeUtf8 (buffer : list byte) : jsstring :=
  utf8_run utf8_start (Byte.to_N <$> buffer) ≫= utf16_of_scalar.

(** ** Packets *)

(** Modelled from the spec: the enum [AdbCommand] of [packet.js] is not among
    the sources; the spec names the commands, the dispatcher handles [OKAY],
    [CLSE], [WRTE] and [OPEN]. *)
Module AdbCommand.
Inductive t : Type := Sync | Connect | Auth | Open | OK | Close | Write.
End AdbCommand.

(** Modelled from the spec: the packet types of [packet.js] are not among the
    sources; the spec gives a packet its [command], its [arg0] and [arg1]
    (unsigned 32-bit numbers, which the dispatcher copies and compares and
    never computes with) and its [payload]. *)
Record AdbPacketData : Type := {
  command : AdbCommand.t;
  arg0 : N;
  arg1 : N;
  payload : list byte;
}.

(** An [AdbPacketInit] is the packet's data and its [checksum]. *)
Record AdbPacketInit : Type := {
  data :> AdbPacketData;
  checksum : N;
}.

(** Modelled from the spec: [calculateChecksum] of [packet.js] is not among
    the sources; the spec calls the checksum the 32-bit sum of the payload
    bytes. *)
Definition calculateChecksum (init : AdbPacketData) : AdbPacketInit :=
  {| data := init;
     checksum := foldr (fun b sum => Byte.to_N b + sum) 0 (payload init) mod 2 ^ 32 |}.

Definition EmptyUint8Array : list byte := [].

(** The [payload] argument of [sendPacket]: [string | Uint8Array]. *)
Inductive Payload : Type :=
  | PayloadString (s : jsstring)
  | PayloadBytes (b : list byte).

(** [if (typeof payload === 'string') { payload = encodeUtf8(payload); }] *)
Definition payload_bytes (payload : Payload) : list byte :=
  match payload with
  | PayloadString s => encodeUtf8 s
  | PayloadBytes b => b
  end.

(** ** Errors and promises *)

Inductive JsError : Type :=
  | Error_ (message : string)
  | TypeError (message : string)
  | TransportError (code : N).

(** How a promise settles; the value of a [void] promise is [None]. *)
Inductive Settlement : Type :=
  | Fulfilled (value : option N)
  | Rejected (reason : JsError).

Inductive PromiseState : Type :=
  | Pending
  | Settled (s : Settlement).

(** Modelled from the spec: [PromiseResolver] is imported from another
    package; the spec calls it a one-shot resolver: [resolve] and [reject]
    settle a pending promise and leave a settled one as it is. *)
Definition PromiseResolver_resolve (value : option N) (p : PromiseState) : PromiseState :=
  match p with
  | Pending => Settled (Fulfilled value)
  | Settled s => Settled s
  end.

Definition PromiseResolver_reject (reason : JsError) (p : PromiseState) : PromiseState :=
  match p with
  | Pending => Settled (Rejected reason)
  | Settled s => Settled s
  end.

(** ** The table of pending opens *)

(** Modelled from the spec: [AsyncOperationManager] is imported from another
    package. The spec describes it as the pending-open table with its id
    allocator: [add] allocates the next id, counting upwards, and returns it
    with a future; [resolve] and [reject] complete a pending entry, remove it
    and return whether an entry existed. The future of an id is kept in
    [promises] under that id. Ids are JavaScript numbers counted up by one
    from [startId]; they are taken without bound. *)
Module AsyncOperationManager.
Record t : Type := {
  nextId : N;
  pendingResolvers : gset N;
  promises : gmap N PromiseState;
}.

Definition new (startId : N) : t :=
  {| nextId := startId; pendingResolvers := ∅; promises := ∅ |}.

Definition add (m : t) : N * t :=
  let id := nextId m in
  (id, {| nextId := id + 1;
          pendingResolvers := {[id]} ∪ pendingResolvers m;
          promises := <[id := Pending]> (promises m) |}).

Definition settle (id : N) (f : PromiseState -> PromiseState) (m : t) : bool * t :=
  if decide (id ∈ pendingResolvers m) then
    (true, {| nextId := nextId m;
              pendingResolvers := pendingResolvers m ∖ {[id]};
              promises := alter f id (promises m) |})
  else (false, m).

Definition resolve (id : N) (result : option N) (m : t) : bool * t :=
  settle id (PromiseResolver_resolve result) m.

Definition reject (id : N) (reason : JsError) (m : t) : bool * t :=
  settle id (PromiseResolver_reject reason) m.
End AsyncOperationManager.

(** ** Sockets *)

(** Socket objects are shared between the dispatcher and the application:
    they live in a store and are named by their position in it. *)
Abbreviation Ref := nat (only parsing).

(** Modelled from the spec: [AdbSocketController] of [socket.js] is not among
    the sources. The spec lists the attributes of a logical stream and its
    dispatcher-facing operations: [enqueue] queues a payload for the reader,
    [ack] sets the write gate to ready, [dispose] is the forced teardown after
    which the stream is closed. [disposed] records that the teardown ran. *)
Module AdbSocketController.
Inductive WriteGate : Type := Ready | AwaitingAck.

Record t : Type := {
  localId : N;
  remoteId : option N;
  localCreated : bool;
  serviceString : jsstring;
  readQueue : list (list byte);
  writeGate : WriteGate;
  closed : bool;
  disposed : bool;
}.

Definition new (localId : N) (remoteId : option N) (localCreated : bool)
    (serviceString : jsstring) : t :=
  {| localId := localId; remoteId := remoteId; localCreated := localCreated;
     serviceString := serviceString; readQueue := []; writeGate := Ready;
     closed := false; disposed := false |}.

Definition enqueue (packet : list byte) (c : t) : t :=
  {| localId := localId c; remoteId := remoteId c; localCreated := localCreated c;
     serviceString := serviceString c; readQueue := readQueue c ++ [packet];
     writeGate := writeGate c; closed := closed c; disposed := disposed c |}.

Definition ack (c : t) : t :=
  {| localId := localId c; remoteId := remoteId c; localCreated := localCreated c;
     serviceString := serviceString c; readQueue := readQueue c;
     writeGate := Ready; closed := closed c; disposed := disposed c |}.

Definition dispose (c : t) : t :=
  {| localId := localId c; remoteId := remoteId c; localCreated := localCreated c;
     serviceString := serviceString c; readQueue := readQueue c;
     writeGate := writeGate c; closed := true; disposed := true |}.
End AdbSocketController.

Record AdbIncomingSocketEventArgs : Type := {
  handled : bool;
  packet : AdbPacketData;
  serviceString : jsstring;
  socket : Ref;
}.

(** ** The transport writer *)

(** Modelled from the spec: the [WritableStreamDefaultWriter] of the transport
    is not among the sources. It accepts outbound packet records, in order,
    until [dispose] releases it; a write to a released writer fails. *)
Module Writer.
Record t : Type := {
  chunks : list AdbPacketInit;
  released : bool;
}.

Definition new : t := {| chunks := []; released := false |}.

Definition write (chunk : AdbPacketInit) (w : t) : option t :=
  if released w then None
  else Some {| chunks := chunks w ++ [chunk]; released := false |}.

Definition releaseLock (w : t) : t :=
  {| chunks := chunks w; released := true |}.
End Writer.

(** The interface [AdbPacketDispatcherOptions]; [maxPayloadSize] is a number
    of bytes. *)
Module AdbPacketDispatcherOptions.
Record t : Type := {
  calculateChecksum : bool;
  appendNullToServiceString : bool;
  maxPayloadSize : N;
}.
End AdbPacketDispatcherOptions.

(** ** Asynchronous functions *)

(** What an [await] waits for: the promise of a write to the transport
    writer, the promise of a socket's [enqueue], or the future of a pending
    open. *)
Inductive Awaited : Type :=
  | AwaitWrite
  | AwaitEnqueue (socket : Ref)
  | AwaitInitializer (id : N).

(** A call of an [async] function over a state [S]: it has returned, it has
    thrown, or it stands at an [await] with the state it has reached. The
    continuation takes the settlement of the awaited promise and the state
    at the time the call is resumed. *)
Inductive Task (S A : Type) : Type :=
  | Return (a : A) (st : S)
  | Throw (e : JsError) (st : S)
  | Suspend (st : S) (p : Awaited) (k : Settlement -> S -> Task S A).

Arguments Return {S A} a st.
Arguments Throw {S A} e st.
Arguments Suspend {S A} st p k.

Section Tasks.
Context {S : Type}.

(** The state at which a call first stops. *)
Definition state_of {A} (t : Task S A) : S :=
  match t with
  | Return _ st => st
  | Throw _ st => st
  | Suspend st _ _ => st
  end.

(** [const x = await f(...); g(x)] *)
Fixpoint bind {A B} (t : Task S A) (f : A -> S -> Task S B) : Task S B :=
  match t with
  | Return a st => f a st
  | Throw e st => Throw e st
  | Suspend st p k => Suspend st p (fun o st' => bind (k o st') f)
  end.

(** [try { ... } catch (e) { h(e) }] *)
Fixpoint try_catch {A} (t : Task S A) (h : JsError -> S -> Task S A) : Task S A :=
  match t with
  | Return a st => Return a st
  | Throw e st => h e st
  | Suspend st p k => Suspend st p (fun o st' => try_catch (k o st') h)
  end.

(** [await p]: the awaiting call goes on with the value, or throws the
    reason. *)
Definition await (p : Awaited) (st : S) : Task S (option N) :=
  Suspend st p (fun o st' =>
    match o with
    | Fulfilled v => Return v st'
    | Rejected e => Throw e st'
    end).
End Tasks.

Section Resuming.
Context {S A : Type}.

(** The promise a call stands at, if it stands at one. *)
Definition awaited (task : Task S A) : option Awaited :=
  match task with
  | Suspend _ p _ => Some p
  | _ => None
  end.

(** A call that stands at an [await] goes on, on state [st], with the
    settlement [o] of the awaited promise. *)
Definition resume (o : Settlement) (st : S) (task : Task S A) : Task S A :=
  match task with
  | Suspend _ _ k => k o st
  | _ => task
  end.
End Resuming.

(** ** The dispatcher *)

Module AdbPacketDispatcher.
(** The fields of the class. [heap] is the store of the socket objects the
    dispatcher has constructed; [sockets] maps a local id to the socket's
    place in it. [incomingSocketEvent] holds the listeners of the event: a
    listener is given the event arguments and answers the value it leaves in
    [handled]. [errorEvent] holds the errors fired, latest last.
    [_abortController] is whether [abort] has been called. *)
Record t : Type := {
  initializers : AsyncOperationManager.t;
  sockets : gmap N Ref;
  heap : list AdbSocketController.t;
  _writer : Writer.t;
  options : AdbPacketDispatcherOptions.t;
  _disconnected : PromiseState;
  incomingSocketEvent : list (AdbIncomingSocketEventArgs -> bool);
  errorEvent : list JsError;
  _abortController : bool;
}.

Definition with_initializers (x : AsyncOperationManager.t) (this : t) : t :=
  {| initializers := x; sockets := sockets this; heap := heap this;
     _writer := _writer this; options := options this;
     _disconnected := _disconnected this;
     incomingSocketEvent := incomingSocketEvent this;
     errorEvent := errorEvent this; _abortController := _abortController this |}.

Definition with_sockets (x : gmap N Ref) (this : t) : t :=
  {| initializers := initializers this; sockets := x; heap := heap this;
     _writer := _writer this; options := options this;
     _disconnected := _disconnected this;
     incomingSocketEvent := incomingSocketEvent this;
     errorEvent := errorEvent this; _abortController := _abortController this |}.

Definition with_heap (x : list AdbSocketController.t) (this : t) : t :=
  {| initializers := initializers this; sockets := sockets this; heap := x;
     _writer := _writer this; options := options this;
     _disconnected := _disconnected this;
     incomingSocketEvent := incomingSocketEvent this;
     errorEvent := errorEvent this; _abortController := _abortController this |}.

Definition with_writer (x : Writer.t) (this : t) : t :=
  {| initializers := initializers this; sockets := sockets this; heap := heap this;
     _writer := x; options := options this;
     _disconnected := _disconnected this;
     incomingSocketEvent := incomingSocketEvent this;
     errorEvent := errorEvent this; _abortController := _abortController this |}.

Definition with_disconnected (x : PromiseState) (this : t) : t :=
  {| initializers := initializers this; sockets := sockets this; heap := heap this;
     _writer := _writer this; options := options this;
     _disconnected := x;
     incomingSocketEvent := incomingSocketEvent this;
     errorEvent := errorEvent this; _abortController := _abortController this |}.

Definition with_incomingSocketEvent (x : list (AdbIncomingSocketEventArgs -> bool))
    (this : t) : t :=
  {| initializers := initializers this; sockets := sockets this; heap := heap this;
     _writer := _writer this; options := options this;
     _disconnected := _disconnected this;
     incomingSocketEvent := x;
     errorEvent := errorEvent this; _abortController := _abortController this |}.

Definition with_errorEvent (x : list JsError) (this : t) : t :=
  {| initializers := initializers this; sockets := sockets this; heap := heap this;
     _writer := _writer this; options := options this;
     _disconnected := _disconnected this;
     incomingSocketEvent := incomingSocketEvent this;
     errorEvent := x; _abortController := _abortController this |}.

Definition with_abortController (x : bool) (this : t) : t :=
  {| initializers := initializers this; sockets := sockets this; heap := heap this;
     _writer := _writer this; options := options this;
     _disconnected := _disconnected this;
     incomingSocketEvent := incomingSocketEvent this;
     errorEvent := errorEvent this; _abortController := x |}.

(** The constructor: ids start from 1, nothing is open, the writer is
    taken from the connection. *)
Definition new (options : AdbPacketDispatcherOptions.t) : t :=
  {| initializers := AsyncOperationManager.new 1; sockets := ∅; heap := [];
     _writer := Writer.new; options := options; _disconnected := Pending;
     incomingSocketEvent := []; errorEvent := []; _abortController := false |}.

(** [onIncomingSocket(listener)] *)
Definition onIncomingSocket (listener : AdbIncomingSocketEventArgs -> bool)
    (this : t) : t :=
  with_incomingSocketEvent (incomingSocketEvent this ++ [listener]) this.

(** [incomingSocketEvent.fire(args)]: the listeners run in turn on the one
    [args] object; the result is the [handled] they leave. *)
Definition fire_incomingSocketEvent (args : AdbIncomingSocketEventArgs)
    (this : t) : bool :=
  foldl (fun h listener =>
           listener {| handled := h; packet := packet args;
                       serviceString := serviceString args;
                       socket := socket args |})
        (handled args) (incomingSocketEvent this).

(** [errorEvent.fire(e)] *)
Definition fire_errorEvent (e : JsError) (this : t) : t :=
  with_errorEvent (errorEvent this ++ [e]) this.

(** [new AdbSocketController({...})]: a new object in the store. *)
Definition new_socket (c : AdbSocketController.t) (this : t) : Ref * t :=
  (length (heap this), with_heap (heap this ++ [c]) this).

(** A method of a socket that changes the socket. *)
Definition on_socket (f : AdbSocketController.t -> AdbSocketController.t)
    (socket : Ref) (this : t) : t :=
  with_heap (alter f socket (heap this)) this.

(** [socket.closed] *)
Definition socket_closed (socket : Ref) (this : t) : bool :=
  match heap this !! socket with
  | Some c => AdbSocketController.closed c
  | None => false
  end.

(** [await socket.enqueue(payload)]: the payload is queued at the call, the
    promise settles when the reader has taken it up. *)
Definition socket_enqueue (socket : Ref) (chunk : list byte) (this : t) : Task t unit :=
  bind (await (AwaitEnqueue socket)
          (on_socket (AdbSocketController.enqueue chunk) socket this))
       (fun _ => Return tt).

(** [await this._writer.write(init)]: a held writer takes the chunk and the
    call stands at the promise of the write; a released writer rejects the
    write, and the call throws. *)
Definition writer_write (init : AdbPacketInit) (this : t) : Task t unit :=
  match Writer.write init (_writer this) with
  | Some w => bind (await AwaitWrite (with_writer w this)) (fun _ => Return tt)
  | None => Throw (TypeError "writer released") this
  end.

(** The part of [sendPacket] the two overloads share, from the size check
    on. *)
Definition send (init : AdbPacketData) (this : t) : Task t unit :=
  if AdbPacketDispatcherOptions.maxPayloadSize (options this) <? byteLength (payload init) then
    Throw (Error_ "payload too large") this
  else
    writer_write
      (if AdbPacketDispatcherOptions.calculateChecksum (options this)
       then calculateChecksum init
       else {| data := init; checksum := 0 |})
      this.

(** [sendPacket(packet)] *)
Definition sendPacket_init (init : AdbPacketInit) (this : t) : Task t unit :=
  send (data init) this.

(** [sendPacket(command, arg0, arg1, payload)] *)
Definition sendPacket (command : AdbCommand.t) (arg0 arg1 : N) (payload : Payload)
    (this : t) : Task t unit :=
  send {| command := command; arg0 := arg0; arg1 := arg1;
          payload := payload_bytes payload |}
       this.

Definition handleOk (packet : AdbPacketData) (this : t) : t :=
  let '(found, ini) :=
    AsyncOperationManager.resolve (arg1 packet) (Some (arg0 packet)) (initializers this) in
  if found then with_initializers ini this
  else
    match sockets this !! arg1 packet with
    | Some socket => on_socket AdbSocketController.ack socket this
    | None =>
        (* the promise of this [sendPacket] is dropped *)
        state_of (sendPacket AdbCommand.Close (arg1 packet) (arg0 packet)
                    (PayloadBytes EmptyUint8Array) this)
    end.

Definition handleClose (packet : AdbPacketData) (this : t) : Task t unit :=
  let '(rejected, ini) :=
    if arg0 packet =? 0
    then AsyncOperationManager.reject (arg1 packet) (Error_ "Socket open failed")
           (initializers this)
    else (false, initializers this) in
  if rejected then Return tt (with_initializers ini this)
  else
    match sockets this !! arg1 packet with
    | Some socket =>
        bind (if socket_closed socket this then Return tt this
              else sendPacket AdbCommand.Close (arg1 packet) (arg0 packet)
                     (PayloadBytes EmptyUint8Array) this)
             (fun _ this' =>
                Return tt
                  (with_sockets (delete (arg1 packet) (sockets this'))
                     (on_socket AdbSocketController.dispose socket this')))
    | None => Return tt this
    end.

Definition handleOpen (packet : AdbPacketData) (this : t) : Task t unit :=
  let '(localId, ini) := AsyncOperationManager.add (initializers this) in
  let '(_, ini) := AsyncOperationManager.resolve localId None ini in
  let this := with_initializers ini this in
  let remoteId := arg0 packet in
  let serviceString := decodeUtf8 (payload packet) in
  let '(controller, this) :=
    new_socket (AdbSocketController.new localId (Some remoteId) false serviceString)
      this in
  let args := {| handled := false; packet := packet;
                 serviceString := serviceString; socket := controller |} in
  if fire_incomingSocketEvent args this then
    sendPacket AdbCommand.OK localId remoteId (PayloadBytes EmptyUint8Array)
      (with_sockets (<[localId := controller]> (sockets this)) this)
  else
    sendPacket AdbCommand.Close 0 remoteId (PayloadBytes EmptyUint8Array) this.

(** The [write] of the sink the inbound packets are piped to. *)
Definition dispatch (packet : AdbPacketData) (this : t) : Task t unit :=
  try_catch
    match command packet with
    | AdbCommand.OK => Return tt (handleOk packet this)
    | AdbCommand.Close => handleClose packet this
    | AdbCommand.Write =>
        match sockets this !! arg1 packet with
        | Some socket =>
            bind (socket_enqueue socket (payload packet) this)
                 (fun _ => sendPacket AdbCommand.OK (arg1 packet) (arg0 packet)
                             (PayloadBytes EmptyUint8Array))
        | None => Return tt this
        end
    | AdbCommand.Open => handleOpen packet this
    | _ => Return tt this
    end
    (fun e this' => Throw e (fire_errorEvent e this')).

(** What [createSocket] does once [await initializer] is over. *)
Definition createSocket_opened (localId : N) (serviceString : jsstring)
    (remoteId : option N) (this : t) : Task t Ref :=
  let '(controller, this) :=
    new_socket (AdbSocketController.new localId remoteId true serviceString) this in
  Return controller (with_sockets (<[localId := controller]> (sockets this)) this).

(** [if (appendNullToServiceString) { serviceString += '\0'; }] *)
Definition terminated (serviceString : jsstring) (this : t) : jsstring :=
  if AdbPacketDispatcherOptions.appendNullToServiceString (options this)
  then serviceString ++ [0] else serviceString.

Definition createSocket (serviceString : jsstring) (this : t) : Task t Ref :=
  let serviceString := terminated serviceString this in
  let '(localId, ini) := AsyncOperationManager.add (initializers this) in
  bind (sendPacket AdbCommand.Open localId 0 (PayloadString serviceString)
          (with_initializers ini this))
       (fun _ this =>
          bind (await (AwaitInitializer localId) this)
               (createSocket_opened localId serviceString)).

(** The steps of [dispose], in the order of the source. The loop over
    [sockets.values()] disposes one socket after the other; the outcome does
    not depend on the order in which the table yields them. *)
Definition dispose_sockets (this : t) : t :=
  foldl (fun this socket => on_socket AdbSocketController.dispose socket this)
        this (map_to_list (sockets this)).*2.

Definition sockets_clear (this : t) : t := with_sockets ∅ this.

Definition abort (this : t) : t := with_abortController true this.

Definition releaseLock (this : t) : t :=
  with_writer (Writer.releaseLock (_writer this)) this.

Definition disconnected_resolve (this : t) : t :=
  with_disconnected (PromiseResolver_resolve None (_disconnected this)) this.

(** [super.dispose()], of the imported [AutoDisposable]: what was registered
    with [addDisposable] is disposed, here the two event emitters, which drop
    their listeners. *)
Definition AutoDisposable_dispose (this : t) : t :=
  with_incomingSocketEvent [] this.

Definition dispose (this : t) : t :=
  AutoDisposable_dispose
    (disconnected_resolve
       (releaseLock (abort (sockets_clear (dispose_sockets this))))).
End AdbPacketDispatcher.

(** ** The dispatcher at work *)

(** The dispatcher together with the calls that stand at an [await]. Between
    two awaits a call runs alone; at an await any other call may run. The
    actions below are what the transport and the application can do to a
    dispatcher, in any order: no order the streams can produce is left out. *)
Module World.
(** A call standing at an [await]: the [write] of the sink for an inbound
    packet, or a [createSocket] of the application. *)
Inductive Suspended : Type :=
  | Handler (p : Awaited)
      (k : Settlement -> AdbPacketDispatcher.t -> Task AdbPacketDispatcher.t unit)
  | Caller (p : Awaited)
      (k : Settlement -> AdbPacketDispatcher.t -> Task AdbPacketDispatcher.t Ref).

Record t : Type := {
  dispatcher : AdbPacketDispatcher.t;
  suspended : list Suspended;
}.

Inductive Action : Type :=
  (** the pipe hands an inbound packet to the sink *)
  | Receive (packet : AdbPacketData)
  (** the application calls [createSocket] *)
  | CreateSocket (serviceString : jsstring)
  (** the promise the [i]-th suspended call awaits has settled and the call
      goes on; [o] is the settlement of a write or of an [enqueue], the
      settlement of the future of a pending open is read from the table *)
  | Resume (i : nat) (o : Settlement)
  (** [dispose()]: called by the application, or by the pipe when it has
      completed or failed *)
  | Dispose
  (** the application subscribes to [onIncomingSocket] *)
  | OnIncomingSocket (listener : AdbIncomingSocketEventArgs -> bool).

Definition new (options : AdbPacketDispatcherOptions.t) : t :=
  {| dispatcher := AdbPacketDispatcher.new options; suspended := [] |}.

(** A call has run up to its next stop. *)
Definition park {A} (wrap : Awaited ->
                            (Settlement -> AdbPacketDispatcher.t ->
                             Task AdbPacketDispatcher.t A) -> Suspended)
    (task : Task AdbPacketDispatcher.t A) (others : list Suspended) : t :=
  match task with
  | Return _ st => {| dispatcher := st; suspended := others |}
  | Throw _ st => {| dispatcher := st; suspended := others |}
  | Suspend st p k => {| dispatcher := st; suspended := others ++ [wrap p k] |}
  end.

(** The settlement an awaiting call is resumed with, if the promise has
    settled. *)
Definition settlement (p : Awaited) (o : Settlement) (d : AdbPacketDispatcher.t)
    : option Settlement :=
  match p with
  | AwaitInitializer id =>
      match AsyncOperationManager.promises (AdbPacketDispatcher.initializers d) !! id with
      | Some (Settled s) => Some s
      | _ => None
      end
  | _ => Some o
  end.

Definition exec (a : Action) (w : t) : t :=
  match a with
  | Receive packet =>
      park Handler (AdbPacketDispatcher.dispatch packet (dispatcher w)) (suspended w)
  | CreateSocket serviceString =>
      park Caller (AdbPacketDispatcher.createSocket serviceString (dispatcher w))
        (suspended w)
  | Resume i o =>
      match suspended w !! i with
      | Some (Handler p k) =>
          match settlement p o (dispatcher w) with
          | Some s => park Handler (k s (dispatcher w)) (delete i (suspended w))
          | None => w
          end
      | Some (Caller p k) =>
          match settlement p o (dispatcher w) with
          | Some s => park Caller (k s (dispatcher w)) (delete i (suspended w))
          | None => w
          end
      | None => w
      end
  | Dispose =>
      {| dispatcher := AdbPacketDispatcher.dispose (dispatcher w);
         suspended := suspended w |}
  | OnIncomingSocket listener =>
      {| dispatcher := AdbPacketDispatcher.onIncomingSocket listener (dispatcher w);
         suspended := suspended w |}
  end.

(** The actions run from left to right. *)
Definition run (actions : list Action) (w : t) : t :=
  foldl (fun w a => exec a w) w actions.
End World.

(** The spec's reading of the service string of an inbound [OPEN]: the
    decoded payload with a trailing NUL stripped. *)
Definition strip_trailing_nul (s : jsstring) : jsstring :=
  match last s with
  | Some 0 => take (length s - 1) s
  | _ => s
  end.

Definition spec_serviceString (buffer : list byte) : jsstring :=
  strip_trailing_nul (decodeUtf8 buffer).

(** The error of a refused open. *)
Definition OpenRejected : JsError := Error_ "Socket open failed".

(** The error of an oversized payload. *)
Definition PayloadTooLarge : JsError := Error_ "payload too large".

(** ** What holds of the two tables at every await *)

Module Invariant.
Import AdbPacketDispatcher.

Definition pending (this : t) : gset N :=
  AsyncOperationManager.pendingResolvers (initializers this).

Definition futures (this : t) : gmap N PromiseState :=
  AsyncOperationManager.promises (initializers this).

Definition nextId (this : t) : N :=
  AsyncOperationManager.nextId (initializers this).

(** No id is pending and open at once; a pending id has an unsettled
    future; the ids of both tables have been allocated. *)
Record Inv (this : t) : Prop := {
  inv_disjoint : ∀ id, id ∈ pending this → sockets this !! id = None;
  inv_pending : ∀ id, id ∈ pending this → futures this !! id = Some Pending;
  inv_futures : ∀ id, is_Some (futures this !! id) → id < nextId this;
  inv_sockets : ∀ id, is_Some (sockets this !! id) → id < nextId this;
}.

(** An awaiting call is resumed with [o] on [this] only if the awaited
    promise has settled so. *)
Definition settles (this : t) (p : Awaited) (o : Settlement) : Prop :=
  match p with
  | AwaitInitializer id => futures this !! id = Some (Settled o)
  | _ => True
  end.

(** A call keeps [Inv]: at each of its stops, whenever it is resumed on a
    state with [Inv]. *)
Inductive Safe {A : Type} : Task t A → Prop :=
  | Safe_Return a st : Inv st → Safe (Return a st)
  | Safe_Throw e st : Inv st → Safe (Throw e st)
  | Safe_Suspend st p k :
      Inv st →
      (∀ o st', Inv st' → settles st' p o → Safe (k o st')) →
      Safe (Suspend st p k).

Definition Resumable {A : Type} (p : Awaited) (k : Settlement → t → Task t A) : Prop :=
  ∀ o st', Inv st' → settles st' p o → Safe (k o st').

Definition SuspendedSafe (s : World.Suspended) : Prop :=
  match s with
  | World.Handler p k => Resumable p k
  | World.Caller p k => Resumable p k
  end.

Definition WorldInv (w : World.t) : Prop :=
  Inv (World.dispatcher w) ∧ Forall SuspendedSafe (World.suspended w).
End Invariant.

(** ** Scenarios and shorthands *)

(** The state after a write the writer has accepted. *)
Definition written (chunk : AdbPacketInit) (this : AdbPacketDispatcher.t)
    : AdbPacketDispatcher.t :=
  AdbPacketDispatcher.with_writer
    {| Writer.chunks := Writer.chunks (AdbPacketDispatcher._writer this) ++ [chunk];
       Writer.released := false |}
    this.

(** A packet without payload, as the dispatcher writes it. *)
Definition reply (command : AdbCommand.t) (arg0 arg1 : N) : AdbPacketInit :=
  {| data := {| command := command; arg0 := arg0; arg1 := arg1; payload := [] |};
     checksum := 0 |}.

(** The options of a device before Android 9. *)
Definition legacy_options : AdbPacketDispatcherOptions.t :=
  {| AdbPacketDispatcherOptions.calculateChecksum := true;
     AdbPacketDispatcherOptions.appendNullToServiceString := true;
     AdbPacketDispatcherOptions.maxPayloadSize := 4096 |}.

Definition modern_options : AdbPacketDispatcherOptions.t :=
  {| AdbPacketDispatcherOptions.calculateChecksum := false;
     AdbPacketDispatcherOptions.appendNullToServiceString := false;
     AdbPacketDispatcherOptions.maxPayloadSize := 262144 |}.

Definition okay_9_5 : AdbPacketData :=
  {| command := AdbCommand.OK; arg0 := 9; arg1 := 5; payload := [] |}.


Definition open_42_sync : AdbPacketData :=
  {| command := AdbCommand.Open; arg0 := 42; arg1 := 0;
     payload := [x73; x79; x6e; x63; x3a; x00]%byte |}.

Definition okay_17_1 : AdbPacketData :=
  {| command := AdbCommand.OK; arg0 := 17; arg1 := 1; payload := [] |}.

Definition close_0_1 : AdbPacketData :=
  {| command := AdbCommand.Close; arg0 := 0; arg1 := 1; payload := [] |}.

Definition close_17_1 : AdbPacketData :=
  {| command := AdbCommand.Close; arg0 := 17; arg1 := 1; payload := [] |}.

Definition write_17_1 : AdbPacketData :=
  {| command := AdbCommand.Write; arg0 := 17; arg1 := 1;
     payload := [x64; x61; x74; x61]%byte |}.

(** The application opens "shell:", the write of [OPEN] completes, the peer
    answers [OKAY(17, 1)] and [createSocket] goes on to its end. *)
Definition local_open : list World.Action :=
  [World.CreateSocket (js "shell:"); World.Resume 0 (Fulfilled None);
   World.Receive okay_17_1; World.Resume 0 (Fulfilled None)].

(** A dispatcher with the one socket [(1, 17)]. *)
Definition established : AdbPacketDispatcher.t :=
  World.dispatcher (World.run local_open (World.new modern_options)).

(** A dispatcher with the open of id 1 pending: [OPEN] written, no answer
    yet. *)
Definition opening : AdbPacketDispatcher.t :=
  World.dispatcher
    (World.run [World.CreateSocket (js "shell:"); World.Resume 0 (Fulfilled None)]
       (World.new modern_options)).

(** The state [handleClose] leaves when the peer closes the socket stored
    under [localId]: the socket disposed and out of the table. *)
Definition torn_down (localId : N) (socket : Ref) (this : AdbPacketDispatcher.t)
    : AdbPacketDispatcher.t :=
  AdbPacketDispatcher.with_sockets (delete localId (AdbPacketDispatcher.sockets this))
    (AdbPacketDispatcher.on_socket AdbSocketController.dispose socket this).

(** The socket [(1, 17)] after the application has closed its side. *)
Definition half_closed : AdbPacketDispatcher.t :=
  AdbPacketDispatcher.with_heap
    [{| AdbSocketController.localId := 1; AdbSocketController.remoteId := Some 17;
        AdbSocketController.localCreated := true;
        AdbSocketController.serviceString := js "shell:";
        AdbSocketController.readQueue := [];
        AdbSocketController.writeGate := AdbSocketController.Ready;
        AdbSocketController.closed := true;
        AdbSocketController.disposed := false |}]
    established.

Definition tiny_options : AdbPacketDispatcherOptions.t :=
  {| AdbPacketDispatcherOptions.calculateChecksum := true;
     AdbPacketDispatcherOptions.appendNullToServiceString := true;
     AdbPacketDispatcherOptions.maxPayloadSize := 3 |}.

(** ** What a run of the dispatcher can and cannot change *)

Module Evolution.
Import AdbPacketDispatcher.

(** A packet as [sendPacket] hands it to the writer under [options]: the
    payload within the limit, the checksum calculated or 0. *)
Definition sendable (options : AdbPacketDispatcherOptions.t) (chunk : AdbPacketInit)
    : Prop :=
  byteLength (payload chunk) ≤ AdbPacketDispatcherOptions.maxPayloadSize options
  ∧ chunk = (if AdbPacketDispatcherOptions.calculateChecksum options
             then calculateChecksum (data chunk)
             else {| data := data chunk; checksum := 0 |}).

(** A socket object later in its life: the same stream, what was queued
    still queued, [closed] and [disposed] not taken back. *)
Record same_socket (c c' : AdbSocketController.t) : Prop := {
  same_localId : AdbSocketController.localId c' = AdbSocketController.localId c;
  same_remoteId : AdbSocketController.remoteId c' = AdbSocketController.remoteId c;
  same_localCreated :
    AdbSocketController.localCreated c' = AdbSocketController.localCreated c;
  same_serviceString :
    AdbSocketController.serviceString c' = AdbSocketController.serviceString c;
  same_readQueue :
    AdbSocketController.readQueue c `prefix_of` AdbSocketController.readQueue c';
  same_closed :
    AdbSocketController.closed c = true → AdbSocketController.closed c' = true;
  same_disposed :
    AdbSocketController.disposed c = true → AdbSocketController.disposed c' = true;
}.

(** The three marks [dispose] leaves. *)
Definition lifecycle (this : t) : PromiseState * bool * bool :=
  (_disconnected this, Writer.released (_writer this), _abortController this).

(** How a later state [b] of the dispatcher relates to an earlier state [a],
    whatever the code has run in between. *)
Record evolves (a b : t) : Prop := {
  ev_options : options b = options a;
  ev_nextId :
    AsyncOperationManager.nextId (initializers a)
    ≤ AsyncOperationManager.nextId (initializers b);
  ev_pending :
    ∀ id, id ∈ AsyncOperationManager.pendingResolvers (initializers b) →
          id ∈ AsyncOperationManager.pendingResolvers (initializers a)
          ∨ AsyncOperationManager.nextId (initializers a) ≤ id;
  ev_heap :
    ∀ (socket : Ref) c, heap a !! socket = Some c →
                        ∃ c', heap b !! socket = Some c' ∧ same_socket c c';
  ev_sockets :
    ∀ id (socket : Ref),
      sockets b !! id = Some socket →
      sockets a !! id = Some socket
      ∨ (1 ≤ id ∧ ∃ c, heap b !! socket = Some c ∧ AdbSocketController.localId c = id);
  ev_chunks :
    ∃ added,
      Writer.chunks (_writer b) = Writer.chunks (_writer a) ++ added
      ∧ Forall (sendable (options a)) added
      ∧ (Writer.released (_writer a) = true → added = []);
  ev_lifecycle :
    lifecycle b = lifecycle a
    ∨ (Writer.released (_writer b) = true
       ∧ _abortController b = true
       ∧ _disconnected b = PromiseResolver_resolve None (_disconnected a));
}.

(** A call all of whose runs between two stops are [evolves]: from [entry]
    to the first stop, and from any state it is resumed on to the next. *)
Inductive Steps {A : Type} : t → Task t A → Prop :=
  | Steps_Return entry a st : evolves entry st → Steps entry (Return a st)
  | Steps_Throw entry e st : evolves entry st → Steps entry (Throw e st)
  | Steps_Suspend entry st p k :
      evolves entry st →
      (∀ o later, Steps later (k o later)) →
      Steps entry (Suspend st p k).

Definition Continues {A : Type} (k : Settlement → t → Task t A) : Prop :=
  ∀ o later, Steps later (k o later).

Definition SuspendedSteps (s : World.Suspended) : Prop :=
  match s with
  | World.Handler _ k => Continues k
  | World.Caller _ k => Continues k
  end.

(** Ids are allocated from 1 on, and the suspended calls are [Steps]. *)
Definition WorldSteps (w : World.t) : Prop :=
  1 ≤ AsyncOperationManager.nextId (initializers (World.dispatcher w))
  ∧ Forall SuspendedSteps (World.suspended w).

(** A call comes to throw [e] on state [st], at once or after some of its
    awaits have settled in some way. *)
Inductive Throws {A : Type} : Task t A → JsError → t → Prop :=
  | Throws_now e st : Throws (Throw e st) e st
  | Throws_later st p k o later e st' :
      Throws (k o later) e st' → Throws (Suspend st p k) e st'.
End Evolution.

(** The socket [(1, 17)] torn down at the peer's [CLSE(17, 1)]. *)
Definition peer_closes : list World.Action :=
  [World.Receive close_17_1; World.Resume 0 (Fulfilled None)].
(** * Properties *)

Section InvariantLemmas.
Import AdbPacketDispatcher Invariant.

Lemma Inv_new options : Inv (new options).
Proof.
  split; unfold pending, futures, nextId; simpl; intros id H.
  - set_solver.
  - set_solver.
  - rewrite lookup_empty in H. by destruct H.
  - rewrite lookup_empty in H. by destruct H.
Qed.

(** [Inv] speaks of the two tables only. *)
Lemma Inv_same a b :
  initializers a = initializers b → sockets a = sockets b → Inv a → Inv b.
Proof.
  intros Hi Hs [H1 H2 H3 H4].
  split; unfold pending, futures, nextId in *; rewrite <- ?Hi, <- ?Hs; auto.
Qed.

Lemma Inv_add this :
  Inv this →
  Inv (with_initializers (AsyncOperationManager.add (initializers this)).2 this).
Proof.
  intros [H1 H2 H3 H4].
  split; unfold pending, futures, nextId in *; simpl; intros id H.
  - apply elem_of_union in H as [H | H]; [| by auto].
    apply elem_of_singleton in H. subst id.
    destruct (sockets this !! AsyncOperationManager.nextId (initializers this)) eqn:E;
      [| done].
    assert (is_Some (sockets this !! AsyncOperationManager.nextId (initializers this)))
      as Hs by (rewrite E; eauto).
    apply H4 in Hs. lia.
  - apply elem_of_union in H as [H | H].
    + apply elem_of_singleton in H. subst id. apply lookup_insert_eq.
    + rewrite lookup_insert_ne; [by auto |].
      intros Heq. specialize (H2 _ H).
      assert (is_Some (AsyncOperationManager.promises (initializers this) !! id))
        as Hs by (rewrite H2; eauto).
      apply H3 in Hs. lia.
  - destruct (decide (AsyncOperationManager.nextId (initializers this) = id)) as [Heq | Hne].
    + lia.
    + rewrite lookup_insert_ne in H by done. apply H3 in H. lia.
  - apply H4 in H. lia.
Qed.

Lemma Inv_settle id f this :
  Inv this →
  Inv (with_initializers (AsyncOperationManager.settle id f (initializers this)).2 this).
Proof.
  intros HI. unfold AsyncOperationManager.settle.
  destruct (decide (id ∈ _)) as [Hin | Hin]; simpl.
  - destruct HI as [H1 H2 H3 H4].
    split; unfold pending, futures, nextId in *; simpl; intros id' H.
    + apply elem_of_difference in H as [H _]. auto.
    + apply elem_of_difference in H as [H Hne].
      rewrite lookup_alter_ne; [by auto | set_solver].
    + apply H3. destruct (decide (id = id')) as [<- | Hne].
      * rewrite lookup_alter_eq in H.
        destruct (AsyncOperationManager.promises (initializers this) !! id);
          [eauto | by destruct H].
      * by rewrite lookup_alter_ne in H.
    + auto.
  - eapply Inv_same; [| | exact HI]; done.
Qed.

Lemma Inv_insert id (socket : Ref) this :
  Inv this → id ∉ pending this → id < nextId this →
  Inv (with_sockets (<[id := socket]> (sockets this)) this).
Proof.
  intros [H1 H2 H3 H4] Hid Hlt.
  split; unfold pending, futures, nextId in *; simpl; intros id' H; auto.
  - rewrite lookup_insert_ne; [by auto | by intros ->].
  - destruct (decide (id = id')) as [<- | Hne]; [done |].
    rewrite lookup_insert_ne in H by done. auto.
Qed.

Lemma Inv_delete id this :
  Inv this → Inv (with_sockets (delete id (sockets this)) this).
Proof.
  intros [H1 H2 H3 H4].
  split; unfold pending, futures, nextId in *; simpl; intros id' H; auto.
  - destruct (decide (id = id')) as [<- | Hne].
    + apply lookup_delete_eq.
    + rewrite lookup_delete_ne by done. auto.
  - destruct (decide (id = id')) as [<- | Hne].
    + rewrite lookup_delete_eq in H. by destruct H.
    + rewrite lookup_delete_ne in H by done. auto.
Qed.
End InvariantLemmas.

Section SafeLemmas.
Import AdbPacketDispatcher Invariant.

Lemma Safe_bind {A B} (task : Task t A) (f : A → t → Task t B) :
  Safe task → (∀ a st, Inv st → Safe (f a st)) → Safe (bind task f).
Proof.
  intros Ht Hf. induction Ht as [a st HI | e st HI | st p k HI Hk IH]; simpl.
  - by apply Hf.
  - by constructor.
  - constructor; [done |]. intros o st' HI' Hs. by apply IH.
Qed.

Lemma Safe_try_catch {A} (task : Task t A) (h : JsError → t → Task t A) :
  Safe task → (∀ e st, Inv st → Safe (h e st)) → Safe (try_catch task h).
Proof.
  intros Ht Hh. induction Ht as [a st HI | e st HI | st p k HI Hk IH]; simpl.
  - by constructor.
  - by apply Hh.
  - constructor; [done |]. intros o st' HI' Hs. by apply IH.
Qed.

Lemma Safe_await p st : Inv st → Safe (await p st).
Proof.
  intros HI. constructor; [done |].
  intros [v | e] st' HI' _; by constructor.
Qed.

Lemma Safe_state_of {A} (task : Task t A) : Safe task → Inv (state_of task).
Proof. by intros [a st HI | e st HI | st p k HI Hk]. Qed.

Lemma Inv_on_socket f socket this : Inv this → Inv (on_socket f socket this).
Proof. by apply Inv_same. Qed.

Lemma Safe_writer_write init this : Inv this → Safe (writer_write init this).
Proof.
  intros HI. unfold writer_write. destruct (Writer.write init (_writer this)) as [w |].
  - apply Safe_bind.
    + apply Safe_await. by eapply Inv_same; [| | exact HI].
    + intros _ st Hst. by constructor.
  - by constructor.
Qed.

Lemma Safe_send init this : Inv this → Safe (send init this).
Proof.
  intros HI. unfold send. destruct (_ <? _).
  - by constructor.
  - by apply Safe_writer_write.
Qed.

Lemma Safe_sendPacket command arg0 arg1 payload this :
  Inv this → Safe (sendPacket command arg0 arg1 payload this).
Proof. apply Safe_send. Qed.

Lemma Inv_handleOk packet this : Inv this → Inv (handleOk packet this).
Proof.
  intros HI. unfold handleOk, AsyncOperationManager.resolve.
  pose proof (Inv_settle (arg1 packet) (PromiseResolver_resolve (Some (arg0 packet)))
                this HI) as Hs.
  destruct (AsyncOperationManager.settle _ _ _) as [[] ini]; simpl in Hs; [done |].
  destruct (sockets this !! arg1 packet) as [socket |].
  - by apply Inv_on_socket.
  - by apply Safe_state_of, Safe_sendPacket.
Qed.

Lemma Safe_handleClose packet this : Inv this → Safe (handleClose packet this).
Proof.
  intros HI. unfold handleClose, AsyncOperationManager.reject.
  pose proof (Inv_settle (arg1 packet) (PromiseResolver_reject (Error_ "Socket open failed"))
                this HI) as Hs.
  assert (∀ st, Inv st →
            Safe (match sockets st !! arg1 packet with
                  | Some socket =>
                      bind (if socket_closed socket st then Return tt st
                            else sendPacket AdbCommand.Close (arg1 packet) (arg0 packet)
                                   (PayloadBytes EmptyUint8Array) st)
                        (fun _ this' =>
                           Return tt
                             (with_sockets (delete (arg1 packet) (sockets this'))
                                (on_socket AdbSocketController.dispose socket this')))
                  | None => Return tt st
                  end : Task t unit)) as Hrest.
  { intros st Hst. destruct (sockets st !! arg1 packet) as [socket |]; [| by constructor].
    apply Safe_bind.
    - destruct (socket_closed socket st); [by constructor | by apply Safe_sendPacket].
    - intros _ st' Hst'. constructor.
      apply (Inv_delete (arg1 packet) (on_socket AdbSocketController.dispose socket st')).
      by apply Inv_on_socket. }
  destruct (arg0 packet =? 0).
  - destruct (AsyncOperationManager.settle _ _ _) as [[] ini]; simpl in Hs.
    + by constructor.
    + by apply Hrest.
  - by apply Hrest.
Qed.
End SafeLemmas.

Section HandlerLemmas.
Import AdbPacketDispatcher Invariant.

(** [add] then [resolve] of the new id: the id is allocated and not
    pending. *)
Lemma add_resolve m result :
  AsyncOperationManager.resolve (AsyncOperationManager.nextId m) result
    (AsyncOperationManager.add m).2 =
  (true,
   {| AsyncOperationManager.nextId := AsyncOperationManager.nextId m + 1;
      AsyncOperationManager.pendingResolvers :=
        ({[AsyncOperationManager.nextId m]} ∪ AsyncOperationManager.pendingResolvers m)
          ∖ {[AsyncOperationManager.nextId m]};
      AsyncOperationManager.promises :=
        alter (PromiseResolver_resolve result) (AsyncOperationManager.nextId m)
          (<[AsyncOperationManager.nextId m := Pending]>
             (AsyncOperationManager.promises m)) |}).
Proof.
  unfold AsyncOperationManager.resolve, AsyncOperationManager.settle. simpl.
  destruct (decide _) as [_ | Hn]; [done | set_solver].
Qed.

Lemma Safe_handleOpen packet this : Inv this → Safe (handleOpen packet this).
Proof.
  intros HI. unfold handleOpen. simpl.
  pose proof (add_resolve (initializers this) None) as Hr.
  assert (Inv (with_initializers
                 (AsyncOperationManager.resolve
                    (AsyncOperationManager.nextId (initializers this)) None
                    (AsyncOperationManager.add (initializers this)).2).2 this)) as Hs.
  { eapply Inv_same;
      [| | exact (Inv_settle (AsyncOperationManager.nextId (initializers this))
                    (PromiseResolver_resolve None) _ (Inv_add this HI))]; done. }
  rewrite Hr in Hs. simpl in Hr, Hs. rewrite Hr.
  set (st := with_initializers _ this) in *.
  destruct (fire_incomingSocketEvent _ _).
  - apply Safe_sendPacket.
    eapply Inv_same;
      [| | apply (Inv_insert (AsyncOperationManager.nextId (initializers this))
                    (length (heap this)) st Hs)]; [done | done | |].
    + unfold pending. simpl. intros Hin.
      apply elem_of_difference in Hin as [_ Hn]. apply Hn. by apply elem_of_singleton.
    + unfold nextId. simpl. lia.
  - apply Safe_sendPacket. by eapply Inv_same; [| | exact Hs].
Qed.

Lemma Safe_dispatch packet this : Inv this → Safe (dispatch packet this).
Proof.
  intros HI. unfold dispatch. apply Safe_try_catch.
  - destruct (command packet); try by constructor.
    + by apply Safe_handleOpen.
    + constructor. by apply Inv_handleOk.
    + by apply Safe_handleClose.
    + destruct (sockets this !! arg1 packet) as [socket |]; [| by constructor].
      apply Safe_bind.
      * unfold socket_enqueue. apply Safe_bind.
        -- apply Safe_await. by apply Inv_on_socket.
        -- intros _ st Hst. by constructor.
      * intros _ st Hst. by apply Safe_sendPacket.
  - intros e st Hst. constructor. by eapply Inv_same; [| | exact Hst].
Qed.

Lemma Safe_createSocket_opened localId serviceString remoteId this :
  Inv this → localId ∉ pending this → localId < nextId this →
  Safe (createSocket_opened localId serviceString remoteId this).
Proof.
  intros HI Hp Hlt. unfold createSocket_opened. simpl. constructor.
  by eapply Inv_same;
    [| | apply (Inv_insert localId (length (heap this)) this HI Hp Hlt)].
Qed.

Lemma Safe_createSocket serviceString this :
  Inv this → Safe (createSocket serviceString this).
Proof.
  intros HI. unfold createSocket. simpl. apply Safe_bind.
  - apply Safe_sendPacket. by apply Inv_add.
  - intros _ st Hst. simpl. constructor; [done |].
    intros o st' Hst' Hset. simpl in Hset.
    assert (AsyncOperationManager.nextId (initializers this) ∉ pending st') as Hp.
    { intros Hin. apply (inv_pending _ Hst') in Hin. congruence. }
    assert (AsyncOperationManager.nextId (initializers this) < nextId st') as Hlt.
    { apply (inv_futures _ Hst'). rewrite Hset. eauto. }
    destruct o as [v | e]; simpl.
    + by apply Safe_createSocket_opened.
    + by constructor.
Qed.

Lemma sockets_dispose_sockets this : sockets (dispose_sockets this) = sockets this.
Proof.
  unfold dispose_sockets. generalize ((map_to_list (sockets this)).*2). intros refs.
  revert this. induction refs as [| r refs IH]; intros this; simpl; [done |].
  by rewrite IH.
Qed.

Lemma initializers_dispose_sockets this :
  initializers (dispose_sockets this) = initializers this.
Proof.
  unfold dispose_sockets. generalize ((map_to_list (sockets this)).*2). intros refs.
  revert this. induction refs as [| r refs IH]; intros this; simpl; [done |].
  by rewrite IH.
Qed.

Lemma Inv_dispose this : Inv this → Inv (dispose this).
Proof.
  intros [H1 H2 H3 H4].
  split; unfold pending, futures, nextId, dispose in *; simpl;
    rewrite ?initializers_dispose_sockets; intros id H; auto.
  rewrite lookup_empty in H. by destruct H.
Qed.

Lemma WorldInv_park {A} wrap (task : Task t A) others :
  (∀ p k, SuspendedSafe (wrap p k) ↔ Resumable p k) →
  Safe task → Forall SuspendedSafe others → WorldInv (World.park wrap task others).
Proof.
  intros Hw Ht Ho. destruct Ht as [a st HI | e st HI | st p k HI Hk]; simpl.
  - by split.
  - by split.
  - split; [done |]. simpl. apply Forall_app. split; [done |].
    apply Forall_singleton. by apply Hw.
Qed.

Lemma settlement_settles p o this s :
  World.settlement p o this = Some s → settles this p s.
Proof.
  destruct p as [| socket | id]; simpl; try done.
  unfold futures. destruct (_ !! id) as [[| s'] |]; try done. by intros [= ->].
Qed.

Lemma WorldInv_exec a w : WorldInv w → WorldInv (World.exec a w).
Proof.
  intros [HI Hs]. destruct a as [packet | serviceString | i o | | listener]; simpl.
  - apply WorldInv_park; [done | by apply Safe_dispatch | done].
  - apply WorldInv_park; [done | by apply Safe_createSocket | done].
  - destruct (World.suspended w !! i) as [[p k | p k] |] eqn:Ei; [| | by split].
    + destruct (World.settlement p o (World.dispatcher w)) as [s |] eqn:Es; [| by split].
      apply WorldInv_park; [done | |].
      * apply (Forall_lookup_1 _ _ _ _ Hs Ei); [done |]. by eapply settlement_settles.
      * by apply Forall_delete.
    + destruct (World.settlement p o (World.dispatcher w)) as [s |] eqn:Es; [| by split].
      apply WorldInv_park; [done | |].
      * apply (Forall_lookup_1 _ _ _ _ Hs Ei); [done |]. by eapply settlement_settles.
      * by apply Forall_delete.
  - split; [by apply Inv_dispose | done].
  - split; [| done]. simpl. by eapply Inv_same; [| | exact HI].
Qed.

Lemma WorldInv_run actions w : WorldInv w → WorldInv (World.run actions w).
Proof.
  revert w. induction actions as [| a actions IH]; intros w Hw; simpl; [done |].
  apply IH. by apply WorldInv_exec.
Qed.

Lemma WorldInv_new options : WorldInv (World.new options).
Proof. split; [apply Inv_new | constructor]. Qed.
End HandlerLemmas.

(** ** The two tables *)

Section Tables.
Import AdbPacketDispatcher Invariant.

(** The id [handleOpen] allocates is not pending when [handleOpen] stops:
    it has been resolved before the socket is inserted. *)
Lemma handleOpen_not_pending packet this :
  AsyncOperationManager.nextId (initializers this)
    ∉ pending (state_of (handleOpen packet this)).
Proof.
  assert (∀ command arg0 arg1 payload st,
            pending (state_of (sendPacket command arg0 arg1 payload st)) = pending st)
    as Hsend.
  { intros command arg0 arg1 payload st. unfold sendPacket, send, writer_write, Writer.write.
    destruct (_ <? _); [done |]. by destruct (Writer.released _). }
  unfold handleOpen. simpl.
  pose proof (add_resolve (initializers this) None) as Hr. simpl in Hr. rewrite Hr.
  destruct (fire_incomingSocketEvent _ _); rewrite Hsend; unfold pending; simpl;
    intros Hin; apply elem_of_difference in Hin as [_ Hn]; apply Hn;
    by apply elem_of_singleton.
Qed.
End Tables.

(** C6: at every point of any sequence of dispatcher operations
    ([createSocket] calls, inbound packets, resumed calls, [dispose]) no local
    id is at once in the pending-open table and in the socket table.
    [createSocket] inserts its id only after the future of the id has settled,
    and an id whose future has settled is no longer pending; [handleOpen] has
    resolved the id it allocates before it inserts the socket. *)
Theorem pending_and_open_disjoint
    (options : AdbPacketDispatcherOptions.t) (actions : list World.Action) :
  let this := World.dispatcher (World.run actions (World.new options)) in
  (∀ id : N,
     ¬ (id ∈ AsyncOperationManager.pendingResolvers (AdbPacketDispatcher.initializers this)
        ∧ is_Some (AdbPacketDispatcher.sockets this !! id)))
  ∧ (∀ (id : N) (o s : Settlement),
       World.settlement (AwaitInitializer id) o this = Some s →
       id ∉ AsyncOperationManager.pendingResolvers (AdbPacketDispatcher.initializers this))
  ∧ (∀ packet : AdbPacketData,
       AsyncOperationManager.nextId (AdbPacketDispatcher.initializers this)
         ∉ AsyncOperationManager.pendingResolvers
             (AdbPacketDispatcher.initializers
                (state_of (AdbPacketDispatcher.handleOpen packet this)))).
Proof.
  intros this.
  destruct (WorldInv_run actions _ (WorldInv_new options)) as [HI _].
  fold this in HI. split; [| split].
  - intros id [Hp Hs]. apply (Invariant.inv_disjoint _ HI) in Hp.
    rewrite Hp in Hs. by destruct Hs.
  - intros id o s Hset Hp. apply settlement_settles in Hset. simpl in Hset.
    apply (Invariant.inv_pending _ HI) in Hp. congruence.
  - intros packet. apply handleOpen_not_pending.
Qed.

Lemma pending_and_open_disjoint_witness :
  (∀ id : N,
     ¬ (id ∈ AsyncOperationManager.pendingResolvers
               (AdbPacketDispatcher.initializers established)
        ∧ is_Some (AdbPacketDispatcher.sockets established !! id)))
  ∧ (∀ (id : N) (o s : Settlement),
       World.settlement (AwaitInitializer id) o established = Some s →
       id ∉ AsyncOperationManager.pendingResolvers
              (AdbPacketDispatcher.initializers established))
  ∧ (∀ packet : AdbPacketData,
       AsyncOperationManager.nextId (AdbPacketDispatcher.initializers established)
         ∉ AsyncOperationManager.pendingResolvers
             (AdbPacketDispatcher.initializers
                (state_of (AdbPacketDispatcher.handleOpen packet established)))).
Proof. exact (pending_and_open_disjoint modern_options local_open). Defined.

(** ** Inbound [OKAY] *)

Section Sending.
Import AdbPacketDispatcher.

(** A packet without payload passes the size check and has checksum 0
    whether or not checksums are calculated. *)
Lemma sendPacket_empty command arg0 arg1 this :
  sendPacket command arg0 arg1 (PayloadBytes EmptyUint8Array) this =
  writer_write {| data := {| command := command; arg0 := arg0; arg1 := arg1;
                             payload := [] |};
                  checksum := 0 |} this.
Proof.
  unfold sendPacket, send. simpl.
  replace (_ <? byteLength []) with false by (symmetry; apply N.ltb_ge; apply N.le_0_l).
  by destruct (AdbPacketDispatcherOptions.calculateChecksum _).
Qed.


Lemma writer_write_held init this :
  Writer.released (_writer this) = false →
  writer_write init this =
  Suspend (written init this) AwaitWrite
    (fun o st' => bind match o with
                       | Fulfilled v => Return v st'
                       | Rejected e => Throw e st'
                       end (fun _ => Return tt)).
Proof. intros Hw. unfold writer_write, Writer.write. by rewrite Hw. Qed.

(** What is left of a [sendPacket] after its await: it returns or throws
    and changes nothing. A caller that drops the promise, as [handleOk]
    does, loses no effect on the dispatcher. *)
Lemma sendPacket_rest command arg0 arg1 payload this o later :
  resume o later (sendPacket command arg0 arg1 payload this) =
  match sendPacket command arg0 arg1 payload this with
  | Suspend _ _ _ =>
      match o with
      | Fulfilled _ => Return tt later
      | Rejected e => Throw e later
      end
  | stopped => stopped
  end.
Proof.
  unfold sendPacket, send, writer_write.
  destruct (_ <? _); [done |].
  destruct (Writer.write _ _); [| done]. by destruct o.
Qed.

Lemma writer_write_released init this :
  Writer.released (_writer this) = true →
  writer_write init this = Throw (TypeError "writer released") this.
Proof. intros Hw. unfold writer_write, Writer.write. by rewrite Hw. Qed.
End Sending.


(** C1, as amended: for an inbound [OKAY] with [arg0 = r] and [arg1 = l],
    where [l] is neither pending nor in the socket table, the dispatcher
    writes one packet, [CLSE] with [arg0 = l] and [arg1 = r], and changes
    neither table. *)
Theorem stale_okay_closes_local_remote (packet : AdbPacketData)
    (this : AdbPacketDispatcher.t) :
  command packet = AdbCommand.OK →
  (arg1 packet
     ∉ AsyncOperationManager.pendingResolvers (AdbPacketDispatcher.initializers this)) →
  AdbPacketDispatcher.sockets this !! arg1 packet = None →
  Writer.released (AdbPacketDispatcher._writer this) = false →
  ∃ this',
    AdbPacketDispatcher.dispatch packet this = Return tt this'
    ∧ this' = written (reply AdbCommand.Close (arg1 packet) (arg0 packet)) this
    ∧ Writer.chunks (AdbPacketDispatcher._writer this') =
        Writer.chunks (AdbPacketDispatcher._writer this)
          ++ [reply AdbCommand.Close (arg1 packet) (arg0 packet)]
    ∧ AdbPacketDispatcher.sockets this' = AdbPacketDispatcher.sockets this
    ∧ AdbPacketDispatcher.initializers this' = AdbPacketDispatcher.initializers this.
Proof.
  intros Hc Hp Hs Hw. eexists. split; [| done].
  unfold AdbPacketDispatcher.dispatch. rewrite Hc. simpl. f_equal.
  unfold AdbPacketDispatcher.handleOk, AsyncOperationManager.resolve,
    AsyncOperationManager.settle.
  destruct (decide _) as [Hin | _]; [done |]. rewrite Hs.
  rewrite sendPacket_empty. by rewrite writer_write_held.
Qed.


Lemma stale_okay_closes_local_remote_witness :
  ∃ this',
    AdbPacketDispatcher.dispatch okay_9_5 (AdbPacketDispatcher.new modern_options)
      = Return tt this'
    ∧ this' = written (reply AdbCommand.Close 5 9) (AdbPacketDispatcher.new modern_options)
    ∧ Writer.chunks (AdbPacketDispatcher._writer this') = [reply AdbCommand.Close 5 9]
    ∧ AdbPacketDispatcher.sockets this' = ∅
    ∧ AdbPacketDispatcher.initializers this' = AsyncOperationManager.new 1.
Proof.
  apply (stale_okay_closes_local_remote okay_9_5 (AdbPacketDispatcher.new modern_options)).
  - reflexivity.
  - vm_compute. intros H. inversion H.
  - reflexivity.
  - reflexivity.
Defined.

(** C1 as the spec has it fails: on a fresh dispatcher the answer to
    [OKAY(9, 5)] is [CLSE(5, 9)], not a [CLSE] with [arg0 = 0]. *)
Lemma stale_okay_close_zero_counterexample :
  let this := AdbPacketDispatcher.new modern_options in
  (5 ∉ AsyncOperationManager.pendingResolvers (AdbPacketDispatcher.initializers this))
  ∧ AdbPacketDispatcher.sockets this !! 5 = None
  ∧ ¬ ∃ sent,
        Writer.chunks
          (AdbPacketDispatcher._writer
             (state_of (AdbPacketDispatcher.dispatch okay_9_5 this))) =
        Writer.chunks (AdbPacketDispatcher._writer this) ++ [sent]
        ∧ command sent = AdbCommand.Close ∧ arg0 sent = 0 ∧ arg1 sent = 9.
Proof.
  split; [| split].
  - vm_compute. intros H. inversion H.
  - reflexivity.
  - intros (sent & Hsent & _ & Hzero & _).
    vm_compute in Hsent. injection Hsent as <-. discriminate Hzero.
Qed.

(** ** Inbound [OPEN] *)

Section Opening.
Import AdbPacketDispatcher.

(** [sendPacket] touches the writer only. *)
Lemma heap_sendPacket command arg0 arg1 payload this :
  heap (state_of (sendPacket command arg0 arg1 payload this)) = heap this.
Proof.
  unfold sendPacket, send, writer_write, Writer.write.
  destruct (_ <? _); [done |]. by destruct (Writer.released _).
Qed.

Lemma sockets_sendPacket command arg0 arg1 payload this :
  sockets (state_of (sendPacket command arg0 arg1 payload this)) = sockets this.
Proof.
  unfold sendPacket, send, writer_write, Writer.write.
  destruct (_ <? _); [done |]. by destruct (Writer.released _).
Qed.

Lemma initializers_sendPacket command arg0 arg1 payload this :
  initializers (state_of (sendPacket command arg0 arg1 payload this)) = initializers this.
Proof.
  unfold sendPacket, send, writer_write, Writer.write.
  destruct (_ <? _); [done |]. by destruct (Writer.released _).
Qed.

(** [handleOpen] with the local id, the reserved table and the new socket
    written out. *)
Lemma handleOpen_unfold packet this :
  handleOpen packet this =
  let localId := AsyncOperationManager.nextId (initializers this) in
  let controller := length (heap this) in
  let this1 :=
    with_heap
      (heap this ++ [AdbSocketController.new localId (Some (arg0 packet)) false
                       (decodeUtf8 (payload packet))])
      (with_initializers
         {| AsyncOperationManager.nextId := localId + 1;
            AsyncOperationManager.pendingResolvers :=
              ({[localId]} ∪ AsyncOperationManager.pendingResolvers (initializers this))
                ∖ {[localId]};
            AsyncOperationManager.promises :=
              alter (PromiseResolver_resolve None) localId
                (<[localId := Pending]>
                   (AsyncOperationManager.promises (initializers this))) |}
         this) in
  if fire_incomingSocketEvent
       {| handled := false; packet := packet;
          serviceString := decodeUtf8 (payload packet); socket := controller |} this
  then sendPacket AdbCommand.OK localId (arg0 packet) (PayloadBytes EmptyUint8Array)
         (with_sockets (<[localId := controller]> (sockets this)) this1)
  else sendPacket AdbCommand.Close 0 (arg0 packet) (PayloadBytes EmptyUint8Array) this1.
Proof.
  unfold handleOpen. simpl.
  pose proof (add_resolve (initializers this) None) as Hr. simpl in Hr. by rewrite Hr.
Qed.
End Opening.


(** C2, as amended: for every inbound [OPEN] the socket [handleOpen]
    constructs has as its [serviceString] the UTF-8 decoding of the payload,
    nothing stripped: a payload that decodes to "sync:" followed by NUL gives
    the service string "sync:" followed by NUL. The same string is handed to
    the listeners; when they accept, the socket is in the table under the new
    local id. *)
Theorem open_serviceString_is_decoded_payload (packet : AdbPacketData)
    (this : AdbPacketDispatcher.t) :
  let this' := state_of (AdbPacketDispatcher.handleOpen packet this) in
  let localId := AsyncOperationManager.nextId (AdbPacketDispatcher.initializers this) in
  let controller := length (AdbPacketDispatcher.heap this) in
  AdbPacketDispatcher.heap this' !! controller
    = Some (AdbSocketController.new localId (Some (arg0 packet)) false
              (decodeUtf8 (payload packet)))
  ∧ AdbPacketDispatcher.sockets this' !! localId
    = (if AdbPacketDispatcher.fire_incomingSocketEvent
            {| handled := false; packet := packet;
               serviceString := decodeUtf8 (payload packet); socket := controller |}
            this
       then Some controller
       else AdbPacketDispatcher.sockets this !! localId)
  ∧ decodeUtf8 [x73; x79; x6e; x63; x3a; x00]%byte = js "sync:" ++ [0].
Proof.
  intros this' localId controller. subst this'.
  subst localId controller. rewrite handleOpen_unfold. cbv zeta.
  split; [| split; [| reflexivity]].
  - destruct (AdbPacketDispatcher.fire_incomingSocketEvent _ this);
      rewrite heap_sendPacket; simpl; by rewrite lookup_app_r, Nat.sub_diag.
  - destruct (AdbPacketDispatcher.fire_incomingSocketEvent _ this);
      rewrite sockets_sendPacket; simpl; [apply lookup_insert_eq | done].
Qed.

(** C2 as the spec has it fails: the payload "sync:" followed by NUL gives a
    socket whose service string still ends in NUL, where the spec's reading
    is "sync:". *)
Lemma open_strips_nul_counterexample :
  let this :=
    AdbPacketDispatcher.onIncomingSocket (fun _ => true)
      (AdbPacketDispatcher.new legacy_options) in
  let this' := state_of (AdbPacketDispatcher.dispatch open_42_sync this) in
  decodeUtf8 (payload open_42_sync) = js "sync:" ++ [0]
  ∧ spec_serviceString (payload open_42_sync) = js "sync:"
  ∧ AdbPacketDispatcher.sockets this' !! 1 = Some 0%nat
  ∧ ¬ ∃ c, AdbPacketDispatcher.heap this' !! 0%nat = Some c
           ∧ AdbSocketController.serviceString c
             = spec_serviceString (payload open_42_sync).
Proof.
  split; [reflexivity | split; [reflexivity | split; [reflexivity |]]].
  intros (c & Hc & Hs). vm_compute in Hc. injection Hc as <-.
  vm_compute in Hs. discriminate Hs.
Qed.

(** ** Inbound [WRTE] *)

(** C3: for an inbound [WRTE] whose [arg1] is the local id of a socket in the
    table, the dispatcher calls [enqueue(payload)] on that socket and stops
    there, nothing written; only when [enqueue] has completed does it write
    [OKAY(localId, remoteId)], and when [enqueue] fails it writes nothing.
    For a [WRTE] whose [arg1] matches no socket nothing is written and the
    state is unchanged. *)
Theorem write_enqueues_then_acknowledges (packet : AdbPacketData)
    (this : AdbPacketDispatcher.t) :
  command packet = AdbCommand.Write →
  match AdbPacketDispatcher.sockets this !! arg1 packet with
  | Some socket =>
      ∃ k,
        AdbPacketDispatcher.dispatch packet this =
          Suspend
            (AdbPacketDispatcher.on_socket (AdbSocketController.enqueue (payload packet))
               socket this)
            (AwaitEnqueue socket) k
        ∧ (∀ v later,
             Writer.released (AdbPacketDispatcher._writer later) = false →
             ∃ k',
               k (Fulfilled v) later =
                 Suspend (written (reply AdbCommand.OK (arg1 packet) (arg0 packet)) later)
                   AwaitWrite k'
               ∧ ∀ v' later', k' (Fulfilled v') later' = Return tt later')
        ∧ (∀ e later,
             k (Rejected e) later = Throw e (AdbPacketDispatcher.fire_errorEvent e later))
  | None => AdbPacketDispatcher.dispatch packet this = Return tt this
  end.
Proof.
  intros Hc. unfold AdbPacketDispatcher.dispatch. rewrite Hc.
  destruct (AdbPacketDispatcher.sockets this !! arg1 packet) as [socket |]; [| done].
  simpl. eexists. split; [reflexivity |]. split.
  - intros v later Hw. simpl. rewrite sendPacket_empty, writer_write_held by done.
    simpl. eexists. split; [reflexivity |]. by intros v' later'.
  - by intros e later.
Qed.

Lemma write_enqueues_then_acknowledges_witness :
  (∃ k,
     AdbPacketDispatcher.dispatch write_17_1 established =
       Suspend
         (AdbPacketDispatcher.on_socket
            (AdbSocketController.enqueue [x64; x61; x74; x61]%byte) 0%nat established)
         (AwaitEnqueue 0%nat) k
     ∧ (∀ v later,
          Writer.released (AdbPacketDispatcher._writer later) = false →
          ∃ k',
            k (Fulfilled v) later =
              Suspend (written (reply AdbCommand.OK 1 17) later) AwaitWrite k'
            ∧ ∀ v' later', k' (Fulfilled v') later' = Return tt later')
     ∧ (∀ e later,
          k (Rejected e) later = Throw e (AdbPacketDispatcher.fire_errorEvent e later)))
  ∧ AdbPacketDispatcher.dispatch write_17_1 (AdbPacketDispatcher.new modern_options)
    = Return tt (AdbPacketDispatcher.new modern_options).
Proof.
  split.
  - exact (write_enqueues_then_acknowledges write_17_1 established eq_refl).
  - exact (write_enqueues_then_acknowledges write_17_1
             (AdbPacketDispatcher.new modern_options) eq_refl).
Defined.

(** ** Calls of [createSocket] *)

Section Creating.
Import AdbPacketDispatcher.

(** [createSocket] up to its first await, when the writer takes the
    [OPEN] packet. *)
Lemma createSocket_sends serviceString this :
  Writer.released (_writer this) = false →
  byteLength (encodeUtf8 (terminated serviceString this))
    ≤ AdbPacketDispatcherOptions.maxPayloadSize (options this) →
  let localId := AsyncOperationManager.nextId (initializers this) in
  let init :=
    {| command := AdbCommand.Open; arg0 := localId; arg1 := 0;
       payload := encodeUtf8 (terminated serviceString this) |} in
  ∃ k,
    createSocket serviceString this =
      Suspend
        (written (if AdbPacketDispatcherOptions.calculateChecksum (options this)
                  then calculateChecksum init
                  else {| data := init; checksum := 0 |})
           (with_initializers (AsyncOperationManager.add (initializers this)).2 this))
        AwaitWrite k
    ∧ (∀ v sent,
         ∃ k',
           k (Fulfilled v) sent = Suspend sent (AwaitInitializer localId) k'
           ∧ (∀ remoteId st,
                k' (Fulfilled remoteId) st =
                  createSocket_opened localId (terminated serviceString this) remoteId st)
           ∧ (∀ e st, k' (Rejected e) st = Throw e st))
    ∧ (∀ e sent, k (Rejected e) sent = Throw e sent).
Proof.
  intros Hw Hsize localId init. unfold createSocket. simpl.
  unfold sendPacket, send. simpl.
  replace (_ <? _) with false by (symmetry; by apply N.ltb_ge).
  rewrite writer_write_held by done. simpl.
  eexists. split; [reflexivity |]. split; [| done].
  intros v sent. simpl. eexists. split; [reflexivity |]. split; [| done].
  by intros remoteId st.
Qed.
End Creating.

(** ** Inbound [CLSE] *)

(** C4: for an inbound [CLSE] with [arg0 = 0] whose [arg1] is a pending
    open, the dispatcher completes the pending open with the error
    [OpenRejected] and does nothing else. The [createSocket] call that
    allocated the id and awaits its future is resumed with that error and
    throws it, leaving the state as it is: afterwards the id is in neither
    table. *)
Theorem refused_open_rejects_createSocket (packet : AdbPacketData)
    (this : AdbPacketDispatcher.t) (serviceString : jsstring)
    (before sent : AdbPacketDispatcher.t) (o : Settlement) :
  command packet = AdbCommand.Close →
  arg0 packet = 0 →
  (arg1 packet
     ∈ AsyncOperationManager.pendingResolvers (AdbPacketDispatcher.initializers this)) →
  AsyncOperationManager.promises (AdbPacketDispatcher.initializers this) !! arg1 packet
    = Some Pending →
  AdbPacketDispatcher.sockets this !! arg1 packet = None →
  AsyncOperationManager.nextId (AdbPacketDispatcher.initializers before) = arg1 packet →
  Writer.released (AdbPacketDispatcher._writer before) = false →
  byteLength (encodeUtf8 (AdbPacketDispatcher.terminated serviceString before))
    ≤ AdbPacketDispatcherOptions.maxPayloadSize (AdbPacketDispatcher.options before) →
  ∃ this',
    AdbPacketDispatcher.dispatch packet this = Return tt this'
    ∧ AsyncOperationManager.promises (AdbPacketDispatcher.initializers this') !! arg1 packet
      = Some (Settled (Rejected OpenRejected))
    ∧ (arg1 packet
         ∉ AsyncOperationManager.pendingResolvers (AdbPacketDispatcher.initializers this'))
    ∧ AdbPacketDispatcher.sockets this' !! arg1 packet = None
    ∧ AdbPacketDispatcher._writer this' = AdbPacketDispatcher._writer this
    ∧ let call :=
        resume (Fulfilled None) sent
          (AdbPacketDispatcher.createSocket serviceString before) in
      awaited call = Some (AwaitInitializer (arg1 packet))
      ∧ World.settlement (AwaitInitializer (arg1 packet)) o this'
        = Some (Rejected OpenRejected)
      ∧ resume (Rejected OpenRejected) this' call = Throw OpenRejected this'.
Proof.
  intros Hc H0 Hp Hf Hs Hid Hw Hsize.
  destruct (createSocket_sends serviceString before Hw Hsize) as (k & -> & Hk & _).
  simpl. destruct (Hk None sent) as (k' & -> & _ & Hk'). rewrite Hid. simpl.
  unfold AdbPacketDispatcher.dispatch, AdbPacketDispatcher.handleClose. rewrite Hc, H0.
  simpl. unfold AsyncOperationManager.reject, AsyncOperationManager.settle.
  destruct (decide _) as [_ | Hn]; [| done]. simpl.
  eexists. split; [reflexivity |]. simpl.
  rewrite lookup_alter_eq, Hf. simpl.
  repeat split; try done.
  intros Hin. apply elem_of_difference in Hin as [_ Hn]. apply Hn.
  by apply elem_of_singleton.
Qed.

Lemma refused_open_rejects_createSocket_witness :
  ∃ this',
    AdbPacketDispatcher.dispatch close_0_1 opening = Return tt this'
    ∧ AsyncOperationManager.promises (AdbPacketDispatcher.initializers this') !! 1
      = Some (Settled (Rejected OpenRejected))
    ∧ (1 ∉ AsyncOperationManager.pendingResolvers (AdbPacketDispatcher.initializers this'))
    ∧ AdbPacketDispatcher.sockets this' !! 1 = None
    ∧ AdbPacketDispatcher._writer this' = AdbPacketDispatcher._writer opening
    ∧ let call :=
        resume (Fulfilled None) opening
          (AdbPacketDispatcher.createSocket (js "shell:")
             (AdbPacketDispatcher.new modern_options)) in
      awaited call = Some (AwaitInitializer 1)
      ∧ World.settlement (AwaitInitializer 1) (Fulfilled None) this'
        = Some (Rejected OpenRejected)
      ∧ resume (Rejected OpenRejected) this' call = Throw OpenRejected this'.
Proof.
  apply (refused_open_rejects_createSocket close_0_1 opening (js "shell:")
           (AdbPacketDispatcher.new modern_options) opening (Fulfilled None)).
  - reflexivity.
  - reflexivity.
  - vm_compute. reflexivity.
  - reflexivity.
  - reflexivity.
  - reflexivity.
  - reflexivity.
  - vm_compute. discriminate.
Defined.

(** C5: for an inbound [CLSE], whatever its [arg0], whose [arg1] is the
    local id of a socket in the table (and is not taken as the refusal of a
    pending open: [arg0] is not 0 or the id is not pending), the
    dispatcher replies [CLSE(localId, remoteId)] exactly when the socket is
    not already closed, and then, the reply written, disposes the socket and
    removes it from the table; if the socket is already closed it does so at
    once and writes nothing. A [CLSE] that matches no pending open and no
    socket changes nothing and writes nothing. *)
Theorem close_replies_unless_closed (packet : AdbPacketData)
    (this : AdbPacketDispatcher.t) :
  command packet = AdbCommand.Close →
  arg0 packet ≠ 0
  ∨ (arg1 packet
       ∉ AsyncOperationManager.pendingResolvers (AdbPacketDispatcher.initializers this)) →
  match AdbPacketDispatcher.sockets this !! arg1 packet with
  | Some socket =>
      (if AdbPacketDispatcher.socket_closed socket this
       then AdbPacketDispatcher.dispatch packet this
            = Return tt (torn_down (arg1 packet) socket this)
       else Writer.released (AdbPacketDispatcher._writer this) = false →
            ∃ k,
              AdbPacketDispatcher.dispatch packet this =
                Suspend (written (reply AdbCommand.Close (arg1 packet) (arg0 packet)) this)
                  AwaitWrite k
              ∧ (∀ v later,
                   k (Fulfilled v) later = Return tt (torn_down (arg1 packet) socket later))
              ∧ (∀ e later,
                   k (Rejected e) later
                   = Throw e (AdbPacketDispatcher.fire_errorEvent e later)))
      ∧ ∀ later,
          AdbPacketDispatcher.sockets (torn_down (arg1 packet) socket later) !! arg1 packet
            = None
          ∧ AdbPacketDispatcher.heap (torn_down (arg1 packet) socket later) !! socket
            = AdbSocketController.dispose <$> AdbPacketDispatcher.heap later !! socket
          ∧ AdbPacketDispatcher._writer (torn_down (arg1 packet) socket later)
            = AdbPacketDispatcher._writer later
  | None => AdbPacketDispatcher.dispatch packet this = Return tt this
  end.
Proof.
  intros Hc Hp.
  assert (AdbPacketDispatcher.dispatch packet this =
          try_catch
            match AdbPacketDispatcher.sockets this !! arg1 packet with
            | Some socket =>
                bind (if AdbPacketDispatcher.socket_closed socket this
                      then Return tt this
                      else AdbPacketDispatcher.sendPacket AdbCommand.Close (arg1 packet)
                             (arg0 packet) (PayloadBytes EmptyUint8Array) this)
                     (fun _ this' => Return tt (torn_down (arg1 packet) socket this'))
            | None => Return tt this
            end
            (fun e this' => Throw e (AdbPacketDispatcher.fire_errorEvent e this'))) as ->.
  { unfold AdbPacketDispatcher.dispatch, AdbPacketDispatcher.handleClose. rewrite Hc.
    unfold AsyncOperationManager.reject, AsyncOperationManager.settle.
    destruct (arg0 packet =? 0) eqn:E0; [| done].
    destruct (decide _) as [Hin | _]; [| done].
    apply N.eqb_eq in E0. by destruct Hp. }
  destruct (AdbPacketDispatcher.sockets this !! arg1 packet) as [socket |]; [| done].
  split.
  - destruct (AdbPacketDispatcher.socket_closed socket this); [done |].
    intros Hw. rewrite sendPacket_empty, writer_write_held by done. simpl.
    eexists. split; [reflexivity |]. by split.
  - intros later. unfold torn_down. simpl. split; [apply lookup_delete_eq |].
    split; [| done]. apply list_lookup_alter_eq.
Qed.

Lemma close_replies_unless_closed_witness :
  (∃ k,
     AdbPacketDispatcher.dispatch close_17_1 established =
       Suspend (written (reply AdbCommand.Close 1 17) established) AwaitWrite k
     ∧ (∀ v later, k (Fulfilled v) later = Return tt (torn_down 1 0%nat later))
     ∧ (∀ e later,
          k (Rejected e) later = Throw e (AdbPacketDispatcher.fire_errorEvent e later)))
  ∧ AdbPacketDispatcher.dispatch close_0_1 half_closed
    = Return tt (torn_down 1 0%nat half_closed)
  ∧ AdbPacketDispatcher.dispatch close_17_1 (AdbPacketDispatcher.new modern_options)
    = Return tt (AdbPacketDispatcher.new modern_options).
Proof.
  split; [| split].
  - refine (proj1 (close_replies_unless_closed close_17_1 established eq_refl _) eq_refl).
    left. vm_compute. discriminate.
  - refine (proj1 (close_replies_unless_closed close_0_1 half_closed eq_refl _)).
    right. vm_compute. discriminate.
  - refine (close_replies_unless_closed close_17_1 (AdbPacketDispatcher.new modern_options)
              eq_refl _).
    right. vm_compute. discriminate.
Defined.

(** ** [dispose] *)

Section Disposing.
Import AdbPacketDispatcher.

Lemma socket_dispose_twice c :
  AdbSocketController.dispose (AdbSocketController.dispose c)
  = AdbSocketController.dispose c.
Proof. done. Qed.

(** Disposing the sockets at [refs] disposes each of them, once or more,
    and leaves the other objects alone. *)
Lemma heap_dispose_each (refs : list Ref) this (socket : Ref) :
  heap (foldl (fun this socket => on_socket AdbSocketController.dispose socket this)
          this refs) !! socket
  = if decide (socket ∈ refs)
    then AdbSocketController.dispose <$> heap this !! socket
    else heap this !! socket.
Proof.
  revert this. induction refs as [| r refs IH]; intros this.
  - simpl. destruct (decide (socket ∈ [])) as [Hin | _]; [| done].
    by apply not_elem_of_nil in Hin.
  - simpl foldl. rewrite IH. simpl heap.
    destruct (decide (r = socket)) as [-> | Hne].
    + rewrite list_lookup_alter_eq.
      destruct (decide (socket ∈ socket :: refs)) as [_ | Hn];
        [| by destruct Hn; apply list_elem_of_here].
      case_decide; [| reflexivity].
      destruct (_ !! socket); reflexivity.
    + rewrite list_lookup_alter_ne by done.
      destruct (decide (socket ∈ refs)) as [Hin | Hnin];
        destruct (decide (socket ∈ r :: refs)) as [Hin' | Hnin']; try done.
      * destruct Hnin'. by apply list_elem_of_further.
      * apply elem_of_cons in Hin' as [-> | Hin']; done.
Qed.

Lemma heap_dispose_sockets this id socket :
  sockets this !! id = Some socket →
  heap (dispose_sockets this) !! socket
  = AdbSocketController.dispose <$> heap this !! socket.
Proof.
  intros Hs. unfold dispose_sockets. rewrite heap_dispose_each.
  rewrite decide_True; [done |].
  apply list_elem_of_fmap. exists (id, socket). split; [done |].
  by apply elem_of_map_to_list.
Qed.

Lemma disconnected_dispose_sockets this :
  _disconnected (dispose_sockets this) = _disconnected this.
Proof.
  unfold dispose_sockets. generalize ((map_to_list (sockets this)).*2). intros refs.
  revert this. induction refs as [| r refs IH]; intros this; simpl; [done |].
  by rewrite IH.
Qed.

(** With no socket in the table [dispose_sockets] does nothing. *)
Lemma dispose_sockets_empty this : sockets this = ∅ → dispose_sockets this = this.
Proof. intros Hs. unfold dispose_sockets. by rewrite Hs, map_to_list_empty. Qed.

(** Two dispatchers with the same fields are the same. *)
Lemma dispatcher_eq (a b : t) :
  initializers a = initializers b → sockets a = sockets b → heap a = heap b →
  _writer a = _writer b → options a = options b → _disconnected a = _disconnected b →
  incomingSocketEvent a = incomingSocketEvent b → errorEvent a = errorEvent b →
  _abortController a = _abortController b → a = b.
Proof. destruct a, b. simpl. by intros -> -> -> -> -> -> -> -> ->. Qed.

Lemma dispose_twice this : dispose (dispose this) = dispose this.
Proof.
  unfold dispose at 1.
  rewrite (dispose_sockets_empty (dispose this)) by reflexivity.
  apply dispatcher_eq; try reflexivity.
  change (PromiseResolver_resolve None
            (PromiseResolver_resolve None (_disconnected (dispose_sockets this)))
          = PromiseResolver_resolve None (_disconnected (dispose_sockets this))).
  by destruct (_disconnected (dispose_sockets this)).
Qed.
End Disposing.

(** C7: when a call of [dispose()] returns, whoever made it, every socket
    that was in the table has been disposed and is closed, the table is
    empty, and [disconnected] is fulfilled, with no error. The sockets are
    disposed before [disconnected] is resolved: in the state just before
    [_disconnected.resolve()] they are disposed already and [disconnected] is
    as [dispose] found it. *)
Theorem dispose_closes_all_then_resolves (this : AdbPacketDispatcher.t) :
  AdbPacketDispatcher._disconnected this = Pending
  ∨ AdbPacketDispatcher._disconnected this = Settled (Fulfilled None) →
  let this' := AdbPacketDispatcher.dispose this in
  let before_resolve :=
    AdbPacketDispatcher.releaseLock
      (AdbPacketDispatcher.abort
         (AdbPacketDispatcher.sockets_clear (AdbPacketDispatcher.dispose_sockets this))) in
  AdbPacketDispatcher.sockets this' = ∅
  ∧ (∀ id socket c,
       AdbPacketDispatcher.sockets this !! id = Some socket →
       AdbPacketDispatcher.heap this !! socket = Some c →
       ∃ c',
         AdbPacketDispatcher.heap this' !! socket = Some c'
         ∧ c' = AdbSocketController.dispose c
         ∧ AdbSocketController.disposed c' = true
         ∧ AdbSocketController.closed c' = true)
  ∧ AdbPacketDispatcher._disconnected this' = Settled (Fulfilled None)
  ∧ this' = AdbPacketDispatcher.AutoDisposable_dispose
              (AdbPacketDispatcher.disconnected_resolve before_resolve)
  ∧ AdbPacketDispatcher._disconnected before_resolve
    = AdbPacketDispatcher._disconnected this
  ∧ (∀ id socket c,
       AdbPacketDispatcher.sockets this !! id = Some socket →
       AdbPacketDispatcher.heap this !! socket = Some c →
       AdbPacketDispatcher.heap before_resolve !! socket
       = Some (AdbSocketController.dispose c)).
Proof.
  intros Hd this' before_resolve. subst this' before_resolve.
  split; [done |]. split; [| split; [| split; [done | split]]].
  - intros id socket c Hs Hc. eexists. split; [| done].
    unfold AdbPacketDispatcher.dispose. simpl.
    by rewrite (heap_dispose_sockets this id socket Hs), Hc.
  - unfold AdbPacketDispatcher.dispose. simpl. rewrite disconnected_dispose_sockets.
    by destruct Hd as [-> | ->].
  - simpl. apply disconnected_dispose_sockets.
  - intros id socket c Hs Hc. simpl.
    by rewrite (heap_dispose_sockets this id socket Hs), Hc.
Qed.

Lemma dispose_closes_all_then_resolves_witness :
  let this' := AdbPacketDispatcher.dispose established in
  let before_resolve :=
    AdbPacketDispatcher.releaseLock
      (AdbPacketDispatcher.abort
         (AdbPacketDispatcher.sockets_clear
            (AdbPacketDispatcher.dispose_sockets established))) in
  AdbPacketDispatcher.sockets this' = ∅
  ∧ (∀ id socket c,
       AdbPacketDispatcher.sockets established !! id = Some socket →
       AdbPacketDispatcher.heap established !! socket = Some c →
       ∃ c',
         AdbPacketDispatcher.heap this' !! socket = Some c'
         ∧ c' = AdbSocketController.dispose c
         ∧ AdbSocketController.disposed c' = true
         ∧ AdbSocketController.closed c' = true)
  ∧ AdbPacketDispatcher._disconnected this' = Settled (Fulfilled None)
  ∧ this' = AdbPacketDispatcher.AutoDisposable_dispose
              (AdbPacketDispatcher.disconnected_resolve before_resolve)
  ∧ AdbPacketDispatcher._disconnected before_resolve = Pending
  ∧ (∀ id socket c,
       AdbPacketDispatcher.sockets established !! id = Some socket →
       AdbPacketDispatcher.heap established !! socket = Some c →
       AdbPacketDispatcher.heap before_resolve !! socket
       = Some (AdbSocketController.dispose c)).
Proof.
  apply (dispose_closes_all_then_resolves established). left. reflexivity.
Defined.

(** C8: from every state, and for every [n >= 1], [n] calls of [dispose()]
    in a row leave the dispatcher in the state one call leaves it in: the
    same table, the same [disconnected], the same everything else; no call
    fails. *)
Theorem dispose_idempotent (this : AdbPacketDispatcher.t) (n : nat) :
  (1 ≤ n)%nat →
  Nat.iter n AdbPacketDispatcher.dispose this = AdbPacketDispatcher.dispose this.
Proof.
  intros Hn. destruct n as [| n]; [lia |]. clear Hn.
  induction n as [| n IH]; [done |].
  change (Nat.iter (S (S n)) AdbPacketDispatcher.dispose this)
    with (AdbPacketDispatcher.dispose (Nat.iter (S n) AdbPacketDispatcher.dispose this)).
  rewrite IH. apply dispose_twice.
Qed.

Lemma dispose_idempotent_witness :
  Nat.iter 3 AdbPacketDispatcher.dispose established
  = AdbPacketDispatcher.dispose established.
Proof. apply (dispose_idempotent established 3). lia. Defined.

(** ** [sendPacket] *)

(** C9: every call of [sendPacket], of either overload, comes to the same
    steps on the packet [init] it is given or builds. If the payload is
    longer than [options.maxPayloadSize] the call throws and the state, the
    writer included, is as before. Otherwise the packet handed to the
    writer has the checksum calculated from the payload when
    [options.calculateChecksum] is true and the checksum 0 when it is false;
    a writer that is held takes it as its next chunk. *)
Theorem sendPacket_checks_size_then_writes (init : AdbPacketData)
    (this : AdbPacketDispatcher.t) :
  let limit := AdbPacketDispatcherOptions.maxPayloadSize (AdbPacketDispatcher.options this) in
  let sent :=
    if AdbPacketDispatcherOptions.calculateChecksum (AdbPacketDispatcher.options this)
    then calculateChecksum init
    else {| data := init; checksum := 0 |} in
  (∀ p : AdbPacketInit,
     data p = init →
     AdbPacketDispatcher.sendPacket_init p this = AdbPacketDispatcher.send init this)
  ∧ (∀ given : Payload,
       payload_bytes given = payload init →
       AdbPacketDispatcher.sendPacket (command init) (arg0 init) (arg1 init) given this
       = AdbPacketDispatcher.send init this)
  ∧ (limit < byteLength (payload init) →
     AdbPacketDispatcher.send init this = Throw PayloadTooLarge this)
  ∧ (byteLength (payload init) ≤ limit →
     AdbPacketDispatcher.send init this = AdbPacketDispatcher.writer_write sent this
     ∧ (Writer.released (AdbPacketDispatcher._writer this) = false →
        ∃ k,
          AdbPacketDispatcher.send init this = Suspend (written sent this) AwaitWrite k
          ∧ (∀ v later, k (Fulfilled v) later = Return tt later)
          ∧ (∀ e later, k (Rejected e) later = Throw e later))
     ∧ (Writer.released (AdbPacketDispatcher._writer this) = true →
        AdbPacketDispatcher.send init this = Throw (TypeError "writer released") this)).
Proof.
  intros limit sent. subst limit sent. split; [| split; [| split]].
  - intros p <-. reflexivity.
  - intros given Hg. unfold AdbPacketDispatcher.sendPacket. rewrite Hg. by destruct init.
  - intros Hlt. unfold AdbPacketDispatcher.send.
    by replace (_ <? _) with true by (symmetry; by apply N.ltb_lt).
  - intros Hle. unfold AdbPacketDispatcher.send.
    replace (_ <? _) with false by (symmetry; by apply N.ltb_ge).
    split; [done |]. split.
    + intros Hw. rewrite writer_write_held by done. eexists. split; [reflexivity |].
      by split.
    + intros Hw. by rewrite writer_write_released.
Qed.

Lemma sendPacket_checks_size_then_writes_witness :
  (AdbPacketDispatcher.sendPacket AdbCommand.Write 1 17
     (PayloadBytes [x64; x61; x74; x61]%byte) (AdbPacketDispatcher.new tiny_options)
   = Throw PayloadTooLarge (AdbPacketDispatcher.new tiny_options))
  ∧ (∃ k,
       AdbPacketDispatcher.sendPacket AdbCommand.Write 1 17
         (PayloadString (js "data")) (AdbPacketDispatcher.new legacy_options)
       = Suspend
           (written {| data := {| command := AdbCommand.Write; arg0 := 1; arg1 := 17;
                                  payload := [x64; x61; x74; x61]%byte |};
                       checksum := 410 |}
              (AdbPacketDispatcher.new legacy_options))
           AwaitWrite k
       ∧ (∀ v later, k (Fulfilled v) later = Return tt later)
       ∧ (∀ e later, k (Rejected e) later = Throw e later))
  ∧ (∃ k,
       AdbPacketDispatcher.sendPacket_init
         {| data := {| command := AdbCommand.Write; arg0 := 1; arg1 := 17;
                       payload := [x64; x61; x74; x61]%byte |};
            checksum := 7 |}
         (AdbPacketDispatcher.new modern_options)
       = Suspend
           (written {| data := {| command := AdbCommand.Write; arg0 := 1; arg1 := 17;
                                  payload := [x64; x61; x74; x61]%byte |};
                       checksum := 0 |}
              (AdbPacketDispatcher.new modern_options))
           AwaitWrite k
       ∧ (∀ v later, k (Fulfilled v) later = Return tt later)
       ∧ (∀ e later, k (Rejected e) later = Throw e later)).
Proof.
  split; [| split].
  - apply (sendPacket_checks_size_then_writes
             {| command := AdbCommand.Write; arg0 := 1; arg1 := 17;
                payload := [x64; x61; x74; x61]%byte |}
             (AdbPacketDispatcher.new tiny_options)).
    vm_compute. reflexivity.
  - refine (proj1 (proj2 (proj2 (proj2 (proj2
              (sendPacket_checks_size_then_writes
                 {| command := AdbCommand.Write; arg0 := 1; arg1 := 17;
                    payload := [x64; x61; x74; x61]%byte |}
                 (AdbPacketDispatcher.new legacy_options)))) _)) eq_refl).
    vm_compute. discriminate.
  - refine (proj1 (proj2 (proj2 (proj2 (proj2
              (sendPacket_checks_size_then_writes
                 {| command := AdbCommand.Write; arg0 := 1; arg1 := 17;
                    payload := [x64; x61; x74; x61]%byte |}
                 (AdbPacketDispatcher.new modern_options)))) _)) eq_refl).
    vm_compute. discriminate.
Defined.

(** ** [createSocket] *)

(** C10: with [options.appendNullToServiceString] true, [createSocket]
    appends NUL to the service string it is given, sends [OPEN] with the
    encoding of that longer string, and, once the peer has answered with its
    id, constructs the socket with the longer string as [serviceString]: the
    socket handed back ends in NUL and is not the string the caller passed. *)
Theorem createSocket_keeps_appended_nul (serviceString : jsstring)
    (this sent later : AdbPacketDispatcher.t) (v remoteId : option N) :
  AdbPacketDispatcherOptions.appendNullToServiceString (AdbPacketDispatcher.options this)
    = true →
  Writer.released (AdbPacketDispatcher._writer this) = false →
  byteLength (encodeUtf8 (serviceString ++ [0]))
    ≤ AdbPacketDispatcherOptions.maxPayloadSize (AdbPacketDispatcher.options this) →
  let localId := AsyncOperationManager.nextId (AdbPacketDispatcher.initializers this) in
  let call := AdbPacketDispatcher.createSocket serviceString this in
  let controller := length (AdbPacketDispatcher.heap later) in
  (∃ init,
     Writer.chunks (AdbPacketDispatcher._writer (state_of call))
       = Writer.chunks (AdbPacketDispatcher._writer this) ++ [init]
     ∧ data init = {| command := AdbCommand.Open; arg0 := localId; arg1 := 0;
                      payload := encodeUtf8 (serviceString ++ [0]) |})
  ∧ awaited call = Some AwaitWrite
  ∧ awaited (resume (Fulfilled v) sent call) = Some (AwaitInitializer localId)
  ∧ ∃ this',
      resume (Fulfilled remoteId) later (resume (Fulfilled v) sent call)
        = Return controller this'
      ∧ AdbPacketDispatcher.sockets this' !! localId = Some controller
      ∧ AdbPacketDispatcher.heap this' !! controller
        = Some (AdbSocketController.new localId remoteId true (serviceString ++ [0]))
      ∧ last (serviceString ++ [0]) = Some 0
      ∧ serviceString ++ [0] ≠ serviceString.
Proof.
  intros Ha Hw Hsize localId call controller. subst call.
  assert (AdbPacketDispatcher.terminated serviceString this = serviceString ++ [0]) as Ht.
  { unfold AdbPacketDispatcher.terminated. by rewrite Ha. }
  rewrite <- Ht in Hsize.
  destruct (createSocket_sends serviceString this Hw Hsize) as (k & -> & Hk & _).
  rewrite Ht in *. simpl. split; [| split; [done |]].
  - eexists. split; [reflexivity |].
    by destruct (AdbPacketDispatcherOptions.calculateChecksum _).
  - destruct (Hk v sent) as (k' & -> & Hk' & _). simpl. split; [done |].
    rewrite Hk'. unfold AdbPacketDispatcher.createSocket_opened. simpl.
    eexists. split; [reflexivity |]. simpl.
    split; [apply lookup_insert_eq |].
    split; [by rewrite lookup_app_r, Nat.sub_diag |].
    split; [apply last_snoc |].
    intros Heq. apply (f_equal length) in Heq. rewrite length_app in Heq. simpl in Heq. lia.
Qed.

Lemma createSocket_keeps_appended_nul_witness :
  let this := AdbPacketDispatcher.new legacy_options in
  let call := AdbPacketDispatcher.createSocket (js "shell:") this in
  (∃ init,
     Writer.chunks (AdbPacketDispatcher._writer (state_of call)) = [] ++ [init]
     ∧ data init = {| command := AdbCommand.Open; arg0 := 1; arg1 := 0;
                      payload := [x73; x68; x65; x6c; x6c; x3a; x00]%byte |})
  ∧ awaited call = Some AwaitWrite
  ∧ awaited (resume (Fulfilled None) (state_of call) call) = Some (AwaitInitializer 1)
  ∧ ∃ this',
      resume (Fulfilled (Some 17)) (AdbPacketDispatcher.handleOk okay_17_1 (state_of call))
        (resume (Fulfilled None) (state_of call) call)
        = Return 0%nat this'
      ∧ AdbPacketDispatcher.sockets this' !! 1 = Some 0%nat
      ∧ AdbPacketDispatcher.heap this' !! 0%nat
        = Some (AdbSocketController.new 1 (Some 17) true (js "shell:" ++ [0]))
      ∧ last (js "shell:" ++ [0]) = Some 0
      ∧ js "shell:" ++ [0] ≠ js "shell:".
Proof.
  intros this call.
  apply (createSocket_keeps_appended_nul (js "shell:") this (state_of call)
           (AdbPacketDispatcher.handleOk okay_17_1 (state_of call)) None (Some 17)).
  - reflexivity.
  - reflexivity.
  - vm_compute. discriminate.
Defined.

(** ** The scenarios of the spec, run *)

Section Scenarios.
Import AdbPacketDispatcher.

(** S1: [createSocket("shell:")] writes [OPEN(1, 0, "shell:")]; after
    [OKAY(17, 1)] the call returns the socket [(1, 17)]. *)
Example local_open_accepted :
  Writer.chunks (_writer opening)
    = [{| data := {| command := AdbCommand.Open; arg0 := 1; arg1 := 0;
                     payload := encodeUtf8 (js "shell:") |};
          checksum := 0 |}]
  ∧ sockets established !! 1 = Some 0%nat
  ∧ heap established !! 0%nat
    = Some (AdbSocketController.new 1 (Some 17) true (js "shell:")).
Proof. by vm_compute. Qed.

(** S2: the peer answers [CLSE(0, 1)] instead; the call throws and id 1
    is in neither table. *)
Example local_open_rejected :
  let w := World.run [World.CreateSocket (js "shell:"); World.Resume 0 (Fulfilled None);
                      World.Receive close_0_1; World.Resume 0 (Fulfilled None)]
             (World.new modern_options) in
  World.suspended w = []
  ∧ sockets (World.dispatcher w) = ∅
  ∧ AsyncOperationManager.pendingResolvers (initializers (World.dispatcher w)) = ∅
  ∧ AsyncOperationManager.promises (initializers (World.dispatcher w)) !! 1
    = Some (Settled (Rejected OpenRejected)).
Proof. by vm_compute. Qed.

(** S4: [WRTE(17, 1, "data")] on the socket [(1, 17)]: the payload is
    queued and nothing is written until [enqueue] has completed; then
    [OKAY(1, 17)]. *)
Example inbound_data_backpressure :
  let w := World.run [World.Receive write_17_1] {| World.dispatcher := established;
                                                   World.suspended := [] |} in
  let w' := World.exec (World.Resume 0 (Fulfilled None)) w in
  Writer.chunks (_writer (World.dispatcher w)) = Writer.chunks (_writer established)
  ∧ AdbSocketController.readQueue <$> heap (World.dispatcher w) !! 0%nat
    = Some [[x64; x61; x74; x61]%byte]
  ∧ Writer.chunks (_writer (World.dispatcher w'))
    = Writer.chunks (_writer established) ++ [reply AdbCommand.OK 1 17].
Proof. by vm_compute. Qed.

(** S5: a stale [OKAY(9, 5)] is answered; the packet written is
    [CLSE(5, 9)]. *)
Example stale_okay :
  Writer.chunks (_writer (handleOk okay_9_5 (new modern_options)))
    = [reply AdbCommand.Close 5 9].
Proof. by vm_compute. Qed.

(** S6: [OPEN(42, 0, "sync:" NUL)] with a listener that accepts: local id
    1, [OKAY(1, 42)], the socket in the table; with no listener,
    [CLSE(0, 42)] and an empty table. *)
Example peer_open :
  let accepted :=
    state_of (dispatch open_42_sync (onIncomingSocket (fun _ => true) (new modern_options))) in
  let declined := state_of (dispatch open_42_sync (new modern_options)) in
  Writer.chunks (_writer accepted) = [reply AdbCommand.OK 1 42]
  ∧ sockets accepted !! 1 = Some 0%nat
  ∧ Writer.chunks (_writer declined) = [reply AdbCommand.Close 0 42]
  ∧ sockets declined = ∅.
Proof. by vm_compute. Qed.

(** After [dispose] the writer is released: a later [sendPacket] throws
    and writes nothing. *)
Example send_after_dispose :
  sendPacket AdbCommand.OK 1 17 (PayloadBytes EmptyUint8Array) (dispose established)
    = Throw (TypeError "writer released") (dispose established).
Proof. by vm_compute. Qed.
End Scenarios.

(** ** The UTF-8 functions on examples *)

Example encodeUtf8_shell :
  encodeUtf8 (js "shell:") = [x73; x68; x65; x6c; x6c; x3a]%byte.
Proof. reflexivity. Qed.

Example encodeUtf8_euro : encodeUtf8 [0x20AC] = [xe2; x82; xac]%byte.
Proof. reflexivity. Qed.

Example encodeUtf8_pair : encodeUtf8 [0xD83D; 0xDE00] = [xf0; x9f; x98; x80]%byte.
Proof. reflexivity. Qed.

Example encodeUtf8_lone_surrogate : encodeUtf8 [0xD83D; 0x41] = [xef; xbf; xbd; x41]%byte.
Proof. reflexivity. Qed.

Example decodeUtf8_pair : decodeUtf8 [xf0; x9f; x98; x80]%byte = [0xD83D; 0xDE00].
Proof. reflexivity. Qed.

Example decodeUtf8_truncated : decodeUtf8 [x41; xe2; x82]%byte = [0x41; 0xFFFD].
Proof. reflexivity. Qed.

Example decodeUtf8_overlong : decodeUtf8 [xc0; x80]%byte = [0xFFFD; 0xFFFD].
Proof. reflexivity. Qed.

(** An ASCII string survives encoding and decoding. *)
Lemma decodeUtf8_encodeUtf8_ascii (s : jsstring) :
  Forall (fun u => u < 0x80) s → decodeUtf8 (encodeUtf8 s) = s.
Proof.
  unfold decodeUtf8, encodeUtf8. intros Hs.
  induction Hs as [| u s Hu Hs IH]; [done |].
  assert (is_high_surrogate u = false) as Hh.
  { unfold is_high_surrogate. apply andb_false_iff. left. apply N.leb_gt. lia. }
  assert (is_low_surrogate u = false) as Hl.
  { unfold is_low_surrogate. apply andb_false_iff. left. apply N.leb_gt. lia. }
  simpl scalar_values. rewrite Hh, Hl. simpl.
  unfold utf8_of_scalar at 1. replace (u <? 0x80) with true by (symmetry; by apply N.ltb_lt).
  simpl.
  assert (Byte.to_N (byte_of_N u) = u) as Hb.
  { unfold byte_of_N. rewrite N.mod_small by lia.
    destruct (Byte.of_N u) as [b |] eqn:E.
    - by apply Byte.to_of_N.
    - apply Byte.of_N_None_iff in E. lia. }
  rewrite Hb. unfold utf8_step at 1. simpl. unfold utf8_lead at 1.
  replace (u <=? 0x7F) with true by (symmetry; apply N.leb_le; lia).
  simpl. unfold utf16_of_scalar at 1.
  replace (u <? 0x10000) with true by (symmetry; apply N.ltb_lt; lia).
  simpl. f_equal. exact IH.
Qed.

(** * More of the dispatcher *)

(** ** From one state to a later one *)

Section EvolutionLemmas.
Import AdbPacketDispatcher Evolution.

Lemma same_socket_refl c : same_socket c c.
Proof. by split. Qed.

Lemma same_socket_trans c1 c2 c3 :
  same_socket c1 c2 → same_socket c2 c3 → same_socket c1 c3.
Proof.
  intros [A1 A2 A3 A4 A5 A6 A7] [B1 B2 B3 B4 B5 B6 B7].
  split; try congruence; try tauto. by etrans.
Qed.

Lemma same_socket_enqueue chunk c : same_socket c (AdbSocketController.enqueue chunk c).
Proof. split; try done. simpl. by apply prefix_app_r. Qed.

Lemma same_socket_ack c : same_socket c (AdbSocketController.ack c).
Proof. by split. Qed.

Lemma same_socket_dispose c : same_socket c (AdbSocketController.dispose c).
Proof. by split. Qed.

Lemma resolve_resolve value p :
  PromiseResolver_resolve value (PromiseResolver_resolve value p)
  = PromiseResolver_resolve value p.
Proof. by destruct p. Qed.

Lemma evolves_refl a : evolves a a.
Proof.
  split; try done.
  - by left.
  - intros socket c Hc. exists c. split; [done | apply same_socket_refl].
  - by left.
  - exists []. by rewrite app_nil_r.
  - by left.
Qed.

Lemma evolves_trans a b c : evolves a b → evolves b c → evolves a c.
Proof.
  intros [A1 A2 A3 A4 A5 A6 A7] [B1 B2 B3 B4 B5 B6 B7]. split.
  - congruence.
  - lia.
  - intros id Hid. destruct (B3 id Hid) as [Hb | Hb]; [| right; lia].
    apply A3 in Hb. tauto.
  - intros socket c1 H1. destruct (A4 _ _ H1) as (c2 & H2 & S12).
    destruct (B4 _ _ H2) as (c3 & H3 & S23). exists c3. split; [done |].
    by eapply same_socket_trans.
  - intros id socket Hs. destruct (B5 _ _ Hs) as [Hb | Hb]; [| by right].
    destruct (A5 _ _ Hb) as [Ha | (Hid & c2 & H2 & Hl)]; [by left | right].
    split; [done |]. destruct (B4 _ _ H2) as (c3 & H3 & S23). exists c3.
    split; [done |]. rewrite <- Hl. by destruct S23.
  - destruct A6 as (added1 & Ha1 & Hf1 & Hr1). destruct B6 as (added2 & Ha2 & Hf2 & Hr2).
    exists (added1 ++ added2). split; [by rewrite Ha2, Ha1, app_assoc |]. split.
    + apply Forall_app. split; [done |]. by rewrite <- A1.
    + intros Hr. rewrite (Hr1 Hr). simpl. apply Hr2.
      destruct A7 as [Hl | (Hl & _)]; [| done].
      unfold lifecycle in Hl. by injection Hl as _ -> _.
  - unfold lifecycle in *.
    destruct A7 as [Ha | (Ha1 & Ha2 & Ha3)]; destruct B7 as [Hb | (Hb1 & Hb2 & Hb3)].
    + left. congruence.
    + right. injection Ha as Ha1 Ha2 Ha3. by rewrite Hb3, Ha1.
    + right. injection Hb as Hb1 Hb2 Hb3. by rewrite Hb1, Hb2, Hb3.
    + right. by rewrite Hb3, Ha3, resolve_resolve.
Qed.

(** A state that differs in the listeners and the fired errors only. *)
Lemma evolves_same a b :
  initializers b = initializers a → sockets b = sockets a → heap b = heap a →
  _writer b = _writer a → options b = options a → _disconnected b = _disconnected a →
  _abortController b = _abortController a → evolves a b.
Proof.
  intros H1 H2 H3 H4 H5 H6 H7. split; rewrite ?H1, ?H2, ?H3, ?H4, ?H5; try done.
  - by left.
  - intros socket c Hc. exists c. split; [done | apply same_socket_refl].
  - by left.
  - exists []. by rewrite app_nil_r.
  - left. unfold lifecycle. by rewrite H4, H6, H7.
Qed.

Lemma evolves_initializers ini a :
  AsyncOperationManager.nextId (initializers a) ≤ AsyncOperationManager.nextId ini →
  (∀ id, id ∈ AsyncOperationManager.pendingResolvers ini →
         id ∈ AsyncOperationManager.pendingResolvers (initializers a)
         ∨ AsyncOperationManager.nextId (initializers a) ≤ id) →
  evolves a (with_initializers ini a).
Proof.
  intros Hn Hp. split; try done.
  - intros socket c Hc. exists c. split; [done | apply same_socket_refl].
  - by left.
  - exists []. by rewrite app_nil_r.
  - by left.
Qed.

Lemma evolves_heap h a :
  (∀ (socket : Ref) c, heap a !! socket = Some c →
                       ∃ c', h !! socket = Some c' ∧ same_socket c c') →
  evolves a (with_heap h a).
Proof.
  intros Hh. split; try done.
  - by left.
  - by left.
  - exists []. by rewrite app_nil_r.
  - by left.
Qed.

Lemma evolves_sockets s a :
  (∀ id (socket : Ref),
     s !! id = Some socket →
     sockets a !! id = Some socket
     ∨ (1 ≤ id ∧ ∃ c, heap a !! socket = Some c ∧ AdbSocketController.localId c = id)) →
  evolves a (with_sockets s a).
Proof.
  intros Hs. split; try done.
  - by left.
  - intros socket c Hc. exists c. split; [done | apply same_socket_refl].
  - exists []. by rewrite app_nil_r.
  - by left.
Qed.

Lemma evolves_written chunk a :
  Writer.released (_writer a) = false → sendable (options a) chunk →
  evolves a (written chunk a).
Proof.
  intros Hw Hc. split; try done.
  - by left.
  - intros socket c Hs. exists c. split; [done | apply same_socket_refl].
  - by left.
  - exists [chunk]. split; [done |]. split; [by apply Forall_singleton | congruence].
  - left. unfold lifecycle. simpl. by rewrite Hw.
Qed.

Lemma evolves_on_socket f socket a :
  (∀ c, same_socket c (f c)) → evolves a (on_socket f socket a).
Proof.
  intros Hf. apply evolves_heap. intros r c Hc.
  destruct (decide (socket = r)) as [-> | Hne].
  - exists (f c). split; [| done]. by rewrite list_lookup_alter_eq, Hc.
  - exists c. split; [| apply same_socket_refl]. by rewrite list_lookup_alter_ne.
Qed.
End EvolutionLemmas.

Section StepsLemmas.
Import AdbPacketDispatcher Evolution.

Lemma Steps_weaken {A} a b (task : Task t A) : evolves a b → Steps b task → Steps a task.
Proof.
  intros Hab Ht. destruct Ht as [b x st Hst | b e st Hst | b st p k Hst Hk].
  - constructor. by eapply evolves_trans.
  - constructor. by eapply evolves_trans.
  - constructor; [by eapply evolves_trans | done].
Qed.

Lemma Steps_state_of {A} entry (task : Task t A) :
  Steps entry task → evolves entry (state_of task).
Proof. by intros [b x st Hst | b e st Hst | b st p k Hst Hk]. Qed.

Lemma Steps_bind {A B} entry (task : Task t A) (f : A → t → Task t B) :
  Steps entry task → (∀ a st, Steps st (f a st)) → Steps entry (bind task f).
Proof.
  intros Ht Hf. induction Ht as [b x st Hst | b e st Hst | b st p k Hst Hk IH]; simpl.
  - by eapply Steps_weaken.
  - by constructor.
  - constructor; [done |]. intros o later. apply IH.
Qed.

Lemma Steps_try_catch {A} entry (task : Task t A) (h : JsError → t → Task t A) :
  Steps entry task → (∀ e st, Steps st (h e st)) → Steps entry (try_catch task h).
Proof.
  intros Ht Hh. induction Ht as [b x st Hst | b e st Hst | b st p k Hst Hk IH]; simpl.
  - by constructor.
  - by eapply Steps_weaken.
  - constructor; [done |]. intros o later. apply IH.
Qed.

Lemma Steps_await entry p st : evolves entry st → Steps entry (await p st).
Proof.
  intros He. constructor; [done |].
  intros [v | e] later; constructor; apply evolves_refl.
Qed.

Lemma Steps_Return_refl {A} (a : A) st : Steps st (Return a st).
Proof. constructor. apply evolves_refl. Qed.

Lemma Steps_writer_write init this :
  sendable (options this) init → Steps this (writer_write init this).
Proof.
  intros Hs. destruct (Writer.released (_writer this)) eqn:Hw.
  - rewrite writer_write_released by done. constructor. apply evolves_refl.
  - rewrite writer_write_held by done. constructor; [by apply evolves_written |].
    intros [v | e] later; constructor; apply evolves_refl.
Qed.

Lemma Steps_send init this : Steps this (send init this).
Proof.
  unfold send. destruct (_ <? _) eqn:Hlt.
  - constructor. apply evolves_refl.
  - apply Steps_writer_write. apply N.ltb_ge in Hlt. split.
    + by destruct (AdbPacketDispatcherOptions.calculateChecksum _).
    + by destruct (AdbPacketDispatcherOptions.calculateChecksum _).
Qed.

Lemma Steps_sendPacket command arg0 arg1 payload this :
  Steps this (sendPacket command arg0 arg1 payload this).
Proof. apply Steps_send. Qed.

Lemma evolves_settle id f this :
  evolves this
    (with_initializers (AsyncOperationManager.settle id f (initializers this)).2 this).
Proof.
  apply evolves_initializers; unfold AsyncOperationManager.settle;
    destruct (decide _); simpl; try done.
  - intros id' Hin. apply elem_of_difference in Hin as [Hin _]. by left.
  - intros id' Hin. by left.
Qed.

Lemma evolves_handleOk packet this : evolves this (handleOk packet this).
Proof.
  unfold handleOk, AsyncOperationManager.resolve.
  pose proof (evolves_settle (arg1 packet) (PromiseResolver_resolve (Some (arg0 packet)))
                this) as Hs.
  destruct (AsyncOperationManager.settle _ _ _) as [[] ini]; simpl in Hs; [done |].
  destruct (sockets this !! arg1 packet) as [socket |].
  - apply evolves_on_socket. apply same_socket_ack.
  - apply Steps_state_of, Steps_sendPacket.
Qed.

Lemma evolves_delete id this :
  evolves this (with_sockets (delete id (sockets this)) this).
Proof.
  apply evolves_sockets. intros id' socket Hs. left.
  destruct (decide (id = id')) as [-> | Hne].
  - by rewrite lookup_delete_eq in Hs.
  - by rewrite lookup_delete_ne in Hs.
Qed.

Lemma Steps_handleClose packet this : Steps this (handleClose packet this).
Proof.
  unfold handleClose, AsyncOperationManager.reject.
  pose proof (evolves_settle (arg1 packet)
                (PromiseResolver_reject (Error_ "Socket open failed")) this) as Hs.
  assert (Steps this
            (match sockets this !! arg1 packet with
             | Some socket =>
                 bind (if socket_closed socket this then Return tt this
                       else sendPacket AdbCommand.Close (arg1 packet) (arg0 packet)
                              (PayloadBytes EmptyUint8Array) this)
                   (fun _ this' =>
                      Return tt
                        (with_sockets (delete (arg1 packet) (sockets this'))
                           (on_socket AdbSocketController.dispose socket this')))
             | None => Return tt this
             end : Task t unit)) as Hrest.
  { destruct (sockets this !! arg1 packet) as [socket |]; [| apply Steps_Return_refl].
    apply Steps_bind.
    - destruct (socket_closed socket this);
        [apply Steps_Return_refl | apply Steps_sendPacket].
    - intros _ st. constructor.
      eapply evolves_trans; [apply (evolves_on_socket AdbSocketController.dispose socket) |].
      + apply same_socket_dispose.
      + apply (evolves_delete (arg1 packet)
                 (on_socket AdbSocketController.dispose socket st)). }
  destruct (arg0 packet =? 0); [| done].
  destruct (AsyncOperationManager.settle _ _ _) as [[] ini]; simpl in Hs; [| done].
  by constructor.
Qed.

(** A new socket object goes to the end of the store. *)
Lemma evolves_new_socket c this : evolves this (with_heap (heap this ++ [c]) this).
Proof.
  apply evolves_heap. intros socket c0 Hc. exists c0. split; [| apply same_socket_refl].
  by apply lookup_app_l_Some.
Qed.

(** The socket just constructed for [id] is put in the table under [id]. *)
Lemma evolves_insert_new id c (others : gmap N nat) this :
  1 ≤ id → AdbSocketController.localId c = id →
  (∀ id' socket, others !! id' = Some socket → sockets this !! id' = Some socket) →
  evolves this
    (with_sockets (<[id := length (heap this)]> others)
       (with_heap (heap this ++ [c]) this)).
Proof.
  intros Hid Hc Ho.
  eapply evolves_trans; [apply (evolves_new_socket c) |].
  apply (evolves_sockets _ (with_heap (heap this ++ [c]) this)).
  intros id' socket Hs. destruct (decide (id = id')) as [<- | Hne].
  - rewrite lookup_insert_eq in Hs. injection Hs as <-. right. split; [done |].
    exists c. split; [| done]. simpl. by rewrite lookup_app_r, Nat.sub_diag.
  - rewrite lookup_insert_ne in Hs by done. left. by apply Ho.
Qed.

Lemma Steps_handleOpen packet this :
  1 ≤ AsyncOperationManager.nextId (initializers this) →
  Steps this (handleOpen packet this).
Proof.
  intros Hn. rewrite handleOpen_unfold. cbv zeta.
  set (localId := AsyncOperationManager.nextId (initializers this)) in *.
  set (ini := {| AsyncOperationManager.nextId := localId + 1;
                 AsyncOperationManager.pendingResolvers := _;
                 AsyncOperationManager.promises := _ |}).
  assert (evolves this (with_initializers ini this)) as H1.
  { apply evolves_initializers; simpl; [fold localId; lia |].
    intros id Hin. apply elem_of_difference in Hin as [Hin _].
    apply elem_of_union in Hin as [Hin | Hin]; [| by left].
    apply elem_of_singleton in Hin. right. fold localId. lia. }
  set (c := AdbSocketController.new localId (Some (arg0 packet)) false _).
  destruct (fire_incomingSocketEvent _ this).
  - eapply Steps_weaken; [| apply Steps_sendPacket].
    eapply evolves_trans; [exact H1 |].
    by apply (evolves_insert_new localId c (sockets this) (with_initializers ini this)).
  - eapply Steps_weaken; [| apply Steps_sendPacket].
    eapply evolves_trans; [exact H1 |].
    apply (evolves_new_socket c (with_initializers ini this)).
Qed.

Lemma Steps_dispatch packet this :
  1 ≤ AsyncOperationManager.nextId (initializers this) →
  Steps this (dispatch packet this).
Proof.
  intros Hn. unfold dispatch. apply Steps_try_catch.
  - destruct (command packet); try apply Steps_Return_refl.
    + by apply Steps_handleOpen.
    + constructor. apply evolves_handleOk.
    + apply Steps_handleClose.
    + destruct (sockets this !! arg1 packet) as [socket |]; [| apply Steps_Return_refl].
      apply Steps_bind.
      * unfold socket_enqueue. apply Steps_bind.
        -- apply Steps_await. apply evolves_on_socket. apply same_socket_enqueue.
        -- intros _ st. apply Steps_Return_refl.
      * intros _ st. apply Steps_sendPacket.
  - intros e st. constructor. by apply evolves_same.
Qed.

Lemma Steps_createSocket_opened localId serviceString remoteId this :
  1 ≤ localId → Steps this (createSocket_opened localId serviceString remoteId this).
Proof.
  intros Hid. unfold createSocket_opened. simpl. constructor.
  by apply (evolves_insert_new localId
              (AdbSocketController.new localId remoteId true serviceString)
              (sockets this) this).
Qed.

Lemma Steps_createSocket serviceString this :
  1 ≤ AsyncOperationManager.nextId (initializers this) →
  Steps this (createSocket serviceString this).
Proof.
  intros Hn. unfold createSocket. simpl.
  eapply Steps_weaken;
    [apply (evolves_initializers (AsyncOperationManager.add (initializers this)).2) |].
  - simpl. lia.
  - simpl. intros id Hin. apply elem_of_union in Hin as [Hin | Hin]; [| by left].
    apply elem_of_singleton in Hin. right. lia.
  - apply Steps_bind; [apply Steps_sendPacket |].
    intros _ st. constructor; [apply evolves_refl |].
    intros [remoteId | e] later; simpl.
    + by apply Steps_createSocket_opened.
    + constructor. apply evolves_refl.
Qed.

Lemma evolves_dispose_sockets this : evolves this (dispose_sockets this).
Proof.
  unfold dispose_sockets. generalize ((map_to_list (sockets this)).*2). intros refs.
  revert this. induction refs as [| r refs IH]; intros this; simpl; [apply evolves_refl |].
  eapply evolves_trans; [| apply IH].
  apply evolves_on_socket. apply same_socket_dispose.
Qed.

Lemma evolves_dispose this : evolves this (dispose this).
Proof.
  eapply evolves_trans; [apply evolves_dispose_sockets |].
  unfold dispose. generalize (dispose_sockets this). intros st.
  split; try done.
  - by left.
  - intros socket c Hc. exists c. split; [done | apply same_socket_refl].
  - exists []. by rewrite app_nil_r.
  - by right.
Qed.
End StepsLemmas.

Section WorldSteps.
Import AdbPacketDispatcher Evolution.

Lemma WorldSteps_park {A} wrap (task : Task t A) others entry :
  (∀ p k, SuspendedSteps (wrap p k) ↔ Continues k) →
  1 ≤ AsyncOperationManager.nextId (initializers entry) →
  Steps entry task → Forall SuspendedSteps others →
  evolves entry (World.dispatcher (World.park wrap task others))
  ∧ WorldSteps (World.park wrap task others).
Proof.
  intros Hw Hn Ht Ho.
  destruct Ht as [b x st Hst | b e st Hst | b st p k Hst Hk]; simpl;
    (split; [done |]); (split; [destruct Hst; simpl; lia |]); simpl; try done.
  apply Forall_app. split; [done |]. apply Forall_singleton. by apply Hw.
Qed.

Lemma WorldSteps_exec a w :
  WorldSteps w →
  evolves (World.dispatcher w) (World.dispatcher (World.exec a w))
  ∧ WorldSteps (World.exec a w).
Proof.
  intros [Hn Hs]. destruct a as [packet | serviceString | i o | | listener]; simpl.
  - apply WorldSteps_park; [done | done | by apply Steps_dispatch | done].
  - apply WorldSteps_park; [done | done | by apply Steps_createSocket | done].
  - destruct (World.suspended w !! i) as [[p k | p k] |] eqn:Ei;
      [| | split; [apply evolves_refl | by split]].
    + destruct (World.settlement p o (World.dispatcher w)) as [s |];
        [| split; [apply evolves_refl | by split]].
      apply WorldSteps_park; [done | done | | by apply Forall_delete].
      apply (Forall_lookup_1 _ _ _ _ Hs Ei).
    + destruct (World.settlement p o (World.dispatcher w)) as [s |];
        [| split; [apply evolves_refl | by split]].
      apply WorldSteps_park; [done | done | | by apply Forall_delete].
      apply (Forall_lookup_1 _ _ _ _ Hs Ei).
  - pose proof (evolves_dispose (World.dispatcher w)) as He.
    split; [done |]. split; [| done].
    pose proof (ev_nextId _ _ He) as Hle. cbn [World.dispatcher]. lia.
  - split; [by apply evolves_same |]. by split.
Qed.

Lemma WorldSteps_run actions w :
  WorldSteps w →
  evolves (World.dispatcher w) (World.dispatcher (World.run actions w))
  ∧ WorldSteps (World.run actions w).
Proof.
  revert w. induction actions as [| a actions IH]; intros w Hw; simpl.
  - split; [apply evolves_refl | done].
  - destruct (WorldSteps_exec a w Hw) as [He Hw'].
    destruct (IH _ Hw') as [He' Hw'']. split; [by eapply evolves_trans | done].
Qed.

Lemma WorldSteps_new options : WorldSteps (World.new options).
Proof. split; [done | constructor]. Qed.

Lemma writer_dispose_sockets this : _writer (dispose_sockets this) = _writer this.
Proof.
  unfold dispose_sockets. generalize ((map_to_list (sockets this)).*2). intros refs.
  revert this. induction refs as [| r refs IH]; intros this; simpl; [done |].
  by rewrite IH.
Qed.
End WorldSteps.

(** ** Every run *)

(** X1: on every run of a newly constructed dispatcher, every packet that
    has reached the transport writer has a payload no longer than
    [options.maxPayloadSize] and carries the checksum the options ask for:
    the calculated one, or 0. *)
Theorem every_written_packet_is_sendable
    (options : AdbPacketDispatcherOptions.t) (actions : list World.Action) :
  Forall (Evolution.sendable options)
    (Writer.chunks
       (AdbPacketDispatcher._writer
          (World.dispatcher (World.run actions (World.new options))))).
Proof.
  destruct (WorldSteps_run actions _ (WorldSteps_new options)) as [He _].
  destruct (Evolution.ev_chunks _ _ He) as (added & -> & Hf & _). done.
Qed.

(** X2: once [dispose] has run, no packet is written any more, whatever
    packets arrive, whatever calls are made or resumed: the writer stays
    released and holds the chunks it held. *)
Theorem nothing_written_after_dispose
    (options : AdbPacketDispatcherOptions.t) (before after : list World.Action) :
  let w := World.run before (World.new options) in
  let w' := World.run after (World.exec World.Dispose w) in
  Writer.chunks (AdbPacketDispatcher._writer (World.dispatcher w'))
  = Writer.chunks (AdbPacketDispatcher._writer (World.dispatcher w))
  ∧ Writer.released (AdbPacketDispatcher._writer (World.dispatcher w')) = true.
Proof.
  intros w w'. subst w'.
  destruct (WorldSteps_run before _ (WorldSteps_new options)) as [_ Hw]. fold w in Hw.
  destruct (WorldSteps_exec World.Dispose w Hw) as [_ Hd].
  destruct (WorldSteps_run after _ Hd) as [He _].
  assert (Writer.released
            (AdbPacketDispatcher._writer (World.dispatcher (World.exec World.Dispose w)))
          = true) as Hr by done.
  destruct (Evolution.ev_chunks _ _ He) as (added & -> & _ & Hnil).
  rewrite (Hnil Hr), app_nil_r. split.
  - simpl. unfold AdbPacketDispatcher.dispose. simpl. by rewrite writer_dispose_sockets.
  - destruct (Evolution.ev_lifecycle _ _ He) as [Hl | (Hl & _)]; [| done].
    unfold Evolution.lifecycle in Hl. injection Hl as _ Hl _. exact (eq_trans Hl Hr).
Qed.

(** X3: a socket object, once constructed, stays in the store and stays the
    same stream on every further run: its [localId], [remoteId],
    [localCreated] and [serviceString] never change, what was queued for the
    reader stays queued in order, and [closed] and [disposed], once true, stay
    true. *)
Theorem socket_keeps_its_identity
    (options : AdbPacketDispatcherOptions.t) (before after : list World.Action)
    (socket : nat) (c : AdbSocketController.t) :
  let w := World.run before (World.new options) in
  AdbPacketDispatcher.heap (World.dispatcher w) !! socket = Some c →
  ∃ c',
    AdbPacketDispatcher.heap (World.dispatcher (World.run after w)) !! socket = Some c'
    ∧ Evolution.same_socket c c'.
Proof.
  intros w Hc.
  destruct (WorldSteps_run before _ (WorldSteps_new options)) as [_ Hw]. fold w in Hw.
  destruct (WorldSteps_run after _ Hw) as [He _].
  by apply (Evolution.ev_heap _ _ He).
Qed.

(** X4: on every run of a newly constructed dispatcher, local id 0 is never
    given out: every id in the socket table and every pending id is at least
    1, and every entry of the socket table names a socket object in the store
    whose [localId] is the key it is stored under. *)
Theorem table_ids_positive_and_live
    (options : AdbPacketDispatcherOptions.t) (actions : list World.Action) :
  let this := World.dispatcher (World.run actions (World.new options)) in
  (∀ id (socket : nat),
     AdbPacketDispatcher.sockets this !! id = Some socket →
     1 ≤ id
     ∧ ∃ c, AdbPacketDispatcher.heap this !! socket = Some c
            ∧ AdbSocketController.localId c = id)
  ∧ (∀ id,
       id ∈ AsyncOperationManager.pendingResolvers (AdbPacketDispatcher.initializers this) →
       1 ≤ id)
  ∧ 1 ≤ AsyncOperationManager.nextId (AdbPacketDispatcher.initializers this).
Proof.
  intros this.
  destruct (WorldSteps_run actions _ (WorldSteps_new options)) as [He [Hn _]].
  fold this in He, Hn. split; [| split; [| done]].
  - intros id socket Hs. by destruct (Evolution.ev_sockets _ _ He id socket Hs).
  - intros id Hp. by destruct (Evolution.ev_pending _ _ He id Hp).
Qed.

(** X5: on every run of a newly constructed dispatcher, [disconnected] is
    never rejected, and it is resolved exactly when the writer has been
    released and the pipe aborted: either all three are as the constructor
    left them, or all three are as [dispose] leaves them. *)
Theorem disconnected_resolved_iff_disposed
    (options : AdbPacketDispatcherOptions.t) (actions : list World.Action) :
  let this := World.dispatcher (World.run actions (World.new options)) in
  (AdbPacketDispatcher._disconnected this = Pending
   ∧ Writer.released (AdbPacketDispatcher._writer this) = false
   ∧ AdbPacketDispatcher._abortController this = false)
  ∨ (AdbPacketDispatcher._disconnected this = Settled (Fulfilled None)
     ∧ Writer.released (AdbPacketDispatcher._writer this) = true
     ∧ AdbPacketDispatcher._abortController this = true).
Proof.
  intros this.
  destruct (WorldSteps_run actions _ (WorldSteps_new options)) as [He _]. fold this in He.
  destruct (Evolution.ev_lifecycle _ _ He) as [Hl | (H1 & H2 & H3)].
  - left. unfold Evolution.lifecycle in Hl. by injection Hl as -> -> ->.
  - right. by rewrite H3.
Qed.

Lemma socket_keeps_its_identity_witness :
  ∃ c',
    AdbPacketDispatcher.heap
      (World.dispatcher
         (World.run peer_closes (World.run local_open (World.new modern_options))))
      !! 0%nat = Some c'
    ∧ Evolution.same_socket (AdbSocketController.new 1 (Some 17) true (js "shell:")) c'.
Proof.
  apply (socket_keeps_its_identity modern_options local_open peer_closes 0%nat
           (AdbSocketController.new 1 (Some 17) true (js "shell:"))).
  reflexivity.
Defined.

Lemma table_ids_positive_and_live_witness :
  (∀ id (socket : nat),
     AdbPacketDispatcher.sockets established !! id = Some socket →
     1 ≤ id
     ∧ ∃ c, AdbPacketDispatcher.heap established !! socket = Some c
            ∧ AdbSocketController.localId c = id)
  ∧ (∀ id,
       id ∈ AsyncOperationManager.pendingResolvers
              (AdbPacketDispatcher.initializers established) →
       1 ≤ id)
  ∧ 1 ≤ AsyncOperationManager.nextId (AdbPacketDispatcher.initializers established).
Proof. exact (table_ids_positive_and_live modern_options local_open). Defined.

(** ** The handlers, case by case *)

(** X6: an inbound [OKAY] whose [arg1] is a pending open completes that
    open with [arg0] as the remote id and does nothing else: nothing is
    written, no socket is touched. The [createSocket] call that allocated the
    id is then resumed with that remote id; it constructs the socket
    [(arg1, arg0)] with [localCreated] true and the service string it sent,
    puts it in the table under [arg1] and returns it. *)
Theorem okay_completes_pending_open (packet : AdbPacketData)
    (this : AdbPacketDispatcher.t) (serviceString : jsstring)
    (before sent : AdbPacketDispatcher.t) (o : Settlement) :
  command packet = AdbCommand.OK →
  (arg1 packet
     ∈ AsyncOperationManager.pendingResolvers (AdbPacketDispatcher.initializers this)) →
  AsyncOperationManager.promises (AdbPacketDispatcher.initializers this) !! arg1 packet
    = Some Pending →
  AsyncOperationManager.nextId (AdbPacketDispatcher.initializers before) = arg1 packet →
  Writer.released (AdbPacketDispatcher._writer before) = false →
  byteLength (encodeUtf8 (AdbPacketDispatcher.terminated serviceString before))
    ≤ AdbPacketDispatcherOptions.maxPayloadSize (AdbPacketDispatcher.options before) →
  ∃ this',
    AdbPacketDispatcher.dispatch packet this = Return tt this'
    ∧ AsyncOperationManager.promises (AdbPacketDispatcher.initializers this') !! arg1 packet
      = Some (Settled (Fulfilled (Some (arg0 packet))))
    ∧ (arg1 packet
         ∉ AsyncOperationManager.pendingResolvers (AdbPacketDispatcher.initializers this'))
    ∧ AdbPacketDispatcher.sockets this' = AdbPacketDispatcher.sockets this
    ∧ AdbPacketDispatcher.heap this' = AdbPacketDispatcher.heap this
    ∧ AdbPacketDispatcher._writer this' = AdbPacketDispatcher._writer this
    ∧ let call :=
        resume (Fulfilled None) sent
          (AdbPacketDispatcher.createSocket serviceString before) in
      let controller := length (AdbPacketDispatcher.heap this) in
      World.settlement (AwaitInitializer (arg1 packet)) o this'
        = Some (Fulfilled (Some (arg0 packet)))
      ∧ ∃ this'',
          resume (Fulfilled (Some (arg0 packet))) this' call = Return controller this''
          ∧ AdbPacketDispatcher.sockets this''
            = <[arg1 packet := controller]> (AdbPacketDispatcher.sockets this)
          ∧ AdbPacketDispatcher.heap this''
            = AdbPacketDispatcher.heap this
                ++ [AdbSocketController.new (arg1 packet) (Some (arg0 packet)) true
                      (AdbPacketDispatcher.terminated serviceString before)].
Proof.
  intros Hc Hp Hf Hid Hw Hsize.
  destruct (createSocket_sends serviceString before Hw Hsize) as (k & -> & Hk & _).
  simpl. destruct (Hk None sent) as (k' & -> & Hk' & _). rewrite Hid in *. simpl.
  unfold AdbPacketDispatcher.dispatch. rewrite Hc. simpl.
  unfold AdbPacketDispatcher.handleOk, AsyncOperationManager.resolve,
    AsyncOperationManager.settle.
  destruct (decide _) as [_ | Hn]; [| done]. simpl.
  eexists. split; [reflexivity |]. simpl.
  rewrite lookup_alter_eq, Hf. simpl.
  split; [done |]. split.
  { intros Hin. apply elem_of_difference in Hin as [_ Hn]. apply Hn.
    by apply elem_of_singleton. }
  do 4 (split; [done |]).
  rewrite Hk'. unfold AdbPacketDispatcher.createSocket_opened. simpl.
  eexists. split; [reflexivity |]. by split.
Qed.

Lemma okay_completes_pending_open_witness :
  ∃ this',
    AdbPacketDispatcher.dispatch okay_17_1 opening = Return tt this'
    ∧ AsyncOperationManager.promises (AdbPacketDispatcher.initializers this') !! 1
      = Some (Settled (Fulfilled (Some 17)))
    ∧ (1 ∉ AsyncOperationManager.pendingResolvers (AdbPacketDispatcher.initializers this'))
    ∧ AdbPacketDispatcher.sockets this' = AdbPacketDispatcher.sockets opening
    ∧ AdbPacketDispatcher.heap this' = AdbPacketDispatcher.heap opening
    ∧ AdbPacketDispatcher._writer this' = AdbPacketDispatcher._writer opening
    ∧ let call :=
        resume (Fulfilled None) opening
          (AdbPacketDispatcher.createSocket (js "shell:")
             (AdbPacketDispatcher.new modern_options)) in
      let controller := length (AdbPacketDispatcher.heap opening) in
      World.settlement (AwaitInitializer 1) (Fulfilled None) this'
        = Some (Fulfilled (Some 17))
      ∧ ∃ this'',
          resume (Fulfilled (Some 17)) this' call = Return controller this''
          ∧ AdbPacketDispatcher.sockets this''
            = <[1 := controller]> (AdbPacketDispatcher.sockets opening)
          ∧ AdbPacketDispatcher.heap this''
            = AdbPacketDispatcher.heap opening
                ++ [AdbSocketController.new 1 (Some 17) true (js "shell:")].
Proof.
  apply (okay_completes_pending_open okay_17_1 opening (js "shell:")
           (AdbPacketDispatcher.new modern_options) opening (Fulfilled None)).
  - reflexivity.
  - vm_compute. reflexivity.
  - reflexivity.
  - reflexivity.
  - reflexivity.
  - vm_compute. discriminate.
Defined.

(** X7: an inbound [OKAY] whose [arg1] is not pending and is the local id
    of a socket in the table acknowledges that socket and nothing else: its
    write gate is ready, every other socket object is as it was, both tables
    are as they were, and nothing is written. *)
Theorem okay_acks_open_socket (packet : AdbPacketData) (this : AdbPacketDispatcher.t)
    (socket : nat) :
  command packet = AdbCommand.OK →
  (arg1 packet
     ∉ AsyncOperationManager.pendingResolvers (AdbPacketDispatcher.initializers this)) →
  AdbPacketDispatcher.sockets this !! arg1 packet = Some socket →
  ∃ this',
    AdbPacketDispatcher.dispatch packet this = Return tt this'
    ∧ AdbPacketDispatcher.heap this' !! socket
      = AdbSocketController.ack <$> AdbPacketDispatcher.heap this !! socket
    ∧ (∀ c, AdbPacketDispatcher.heap this' !! socket = Some c →
            AdbSocketController.writeGate c = AdbSocketController.Ready)
    ∧ (∀ other : nat,
         other ≠ socket →
         AdbPacketDispatcher.heap this' !! other = AdbPacketDispatcher.heap this !! other)
    ∧ AdbPacketDispatcher.sockets this' = AdbPacketDispatcher.sockets this
    ∧ AdbPacketDispatcher.initializers this' = AdbPacketDispatcher.initializers this
    ∧ AdbPacketDispatcher._writer this' = AdbPacketDispatcher._writer this.
Proof.
  intros Hc Hp Hs. unfold AdbPacketDispatcher.dispatch. rewrite Hc. simpl.
  unfold AdbPacketDispatcher.handleOk, AsyncOperationManager.resolve,
    AsyncOperationManager.settle.
  destruct (decide _) as [Hin | _]; [done |]. rewrite Hs.
  eexists. split; [reflexivity |]. simpl.
  split; [apply list_lookup_alter_eq |]. split.
  { intros c. rewrite list_lookup_alter_eq.
    destruct (AdbPacketDispatcher.heap this !! socket); [| done]. by intros [= <-]. }
  split; [| done]. intros other Hne. by apply list_lookup_alter_ne.
Qed.

Lemma okay_acks_open_socket_witness :
  ∃ this',
    AdbPacketDispatcher.dispatch okay_17_1 established = Return tt this'
    ∧ AdbPacketDispatcher.heap this' !! 0%nat
      = AdbSocketController.ack <$> AdbPacketDispatcher.heap established !! 0%nat
    ∧ (∀ c, AdbPacketDispatcher.heap this' !! 0%nat = Some c →
            AdbSocketController.writeGate c = AdbSocketController.Ready)
    ∧ (∀ other : nat,
         other ≠ 0%nat →
         AdbPacketDispatcher.heap this' !! other
         = AdbPacketDispatcher.heap established !! other)
    ∧ AdbPacketDispatcher.sockets this' = AdbPacketDispatcher.sockets established
    ∧ AdbPacketDispatcher.initializers this' = AdbPacketDispatcher.initializers established
    ∧ AdbPacketDispatcher._writer this' = AdbPacketDispatcher._writer established.
Proof.
  apply (okay_acks_open_socket okay_17_1 established 0%nat).
  - reflexivity.
  - vm_compute. discriminate.
  - reflexivity.
Defined.

(** X8: an inbound [OPEN] uses up the next local id whether the listeners
    accept it or not, and leaves the pending table as it was. When the
    listeners accept, [OKAY(localId, arg0)] is written and the new socket is
    in the table under the new id; when they do not, [CLSE(0, arg0)] is
    written and the table is as it was. A failed write of the answer is fired
    on the error event and thrown. *)
Theorem open_answers_and_uses_an_id (packet : AdbPacketData)
    (this : AdbPacketDispatcher.t) :
  command packet = AdbCommand.Open →
  Writer.released (AdbPacketDispatcher._writer this) = false →
  (AsyncOperationManager.nextId (AdbPacketDispatcher.initializers this)
     ∉ AsyncOperationManager.pendingResolvers (AdbPacketDispatcher.initializers this)) →
  let localId := AsyncOperationManager.nextId (AdbPacketDispatcher.initializers this) in
  let controller := length (AdbPacketDispatcher.heap this) in
  let accepted :=
    AdbPacketDispatcher.fire_incomingSocketEvent
      {| handled := false; packet := packet;
         serviceString := decodeUtf8 (payload packet); socket := controller |} this in
  ∃ this' k,
    AdbPacketDispatcher.dispatch packet this = Suspend this' AwaitWrite k
    ∧ Writer.chunks (AdbPacketDispatcher._writer this')
      = Writer.chunks (AdbPacketDispatcher._writer this)
          ++ [if accepted then reply AdbCommand.OK localId (arg0 packet)
              else reply AdbCommand.Close 0 (arg0 packet)]
    ∧ AdbPacketDispatcher.sockets this'
      = (if accepted then <[localId := controller]> (AdbPacketDispatcher.sockets this)
         else AdbPacketDispatcher.sockets this)
    ∧ AsyncOperationManager.nextId (AdbPacketDispatcher.initializers this') = localId + 1
    ∧ AsyncOperationManager.pendingResolvers (AdbPacketDispatcher.initializers this')
      = AsyncOperationManager.pendingResolvers (AdbPacketDispatcher.initializers this)
    ∧ (∀ v later, k (Fulfilled v) later = Return tt later)
    ∧ (∀ e later,
         k (Rejected e) later = Throw e (AdbPacketDispatcher.fire_errorEvent e later)).
Proof.
  intros Hc Hw Hn localId controller accepted. subst accepted controller localId.
  unfold AdbPacketDispatcher.dispatch. rewrite Hc, handleOpen_unfold. cbv zeta.
  assert (({[AsyncOperationManager.nextId (AdbPacketDispatcher.initializers this)]}
             ∪ AsyncOperationManager.pendingResolvers
                 (AdbPacketDispatcher.initializers this))
            ∖ {[AsyncOperationManager.nextId (AdbPacketDispatcher.initializers this)]}
          = AsyncOperationManager.pendingResolvers (AdbPacketDispatcher.initializers this))
    as Hset.
  { apply set_eq. intros id. rewrite elem_of_difference, elem_of_union, elem_of_singleton.
    split; [tauto |]. intros Hin. split; [by right |]. by intros ->. }
  destruct (AdbPacketDispatcher.fire_incomingSocketEvent _ this);
    rewrite sendPacket_empty, writer_write_held by done; simpl;
    eexists _, _; (split; [reflexivity |]); simpl; by rewrite Hset.
Qed.

Lemma open_answers_and_uses_an_id_witness :
  let this :=
    AdbPacketDispatcher.onIncomingSocket (fun _ => true)
      (AdbPacketDispatcher.new modern_options) in
  ∃ this' k,
    AdbPacketDispatcher.dispatch open_42_sync this = Suspend this' AwaitWrite k
    ∧ Writer.chunks (AdbPacketDispatcher._writer this')
      = [] ++ [reply AdbCommand.OK 1 42]
    ∧ AdbPacketDispatcher.sockets this' = <[1 := 0%nat]> ∅
    ∧ AsyncOperationManager.nextId (AdbPacketDispatcher.initializers this') = 1 + 1
    ∧ AsyncOperationManager.pendingResolvers (AdbPacketDispatcher.initializers this') = ∅
    ∧ (∀ v later, k (Fulfilled v) later = Return tt later)
    ∧ (∀ e later,
         k (Rejected e) later = Throw e (AdbPacketDispatcher.fire_errorEvent e later)).
Proof.
  intros this. apply (open_answers_and_uses_an_id open_42_sync this).
  - reflexivity.
  - reflexivity.
  - vm_compute. discriminate.
Defined.

(** X9: when [createSocket] cannot send its [OPEN], because the encoded
    service string is longer than [options.maxPayloadSize] or because the
    writer has been released, the call throws with nothing written and no
    socket made; the local id it allocated beforehand stays in the pending
    table, its future unsettled, and the next call gets the next id. *)
Theorem createSocket_unsent_leaves_id_pending (serviceString : jsstring)
    (this : AdbPacketDispatcher.t) :
  AdbPacketDispatcherOptions.maxPayloadSize (AdbPacketDispatcher.options this)
    < byteLength (encodeUtf8 (AdbPacketDispatcher.terminated serviceString this))
  ∨ Writer.released (AdbPacketDispatcher._writer this) = true →
  let localId := AsyncOperationManager.nextId (AdbPacketDispatcher.initializers this) in
  ∃ e this',
    AdbPacketDispatcher.createSocket serviceString this = Throw e this'
    ∧ (e = PayloadTooLarge ∨ e = TypeError "writer released")
    ∧ (localId
         ∈ AsyncOperationManager.pendingResolvers (AdbPacketDispatcher.initializers this'))
    ∧ AsyncOperationManager.promises (AdbPacketDispatcher.initializers this') !! localId
      = Some Pending
    ∧ AsyncOperationManager.nextId (AdbPacketDispatcher.initializers this') = localId + 1
    ∧ AdbPacketDispatcher._writer this' = AdbPacketDispatcher._writer this
    ∧ AdbPacketDispatcher.sockets this' = AdbPacketDispatcher.sockets this
    ∧ AdbPacketDispatcher.heap this' = AdbPacketDispatcher.heap this.
Proof.
  intros Hfail localId. subst localId.
  unfold AdbPacketDispatcher.createSocket. simpl.
  unfold AdbPacketDispatcher.sendPacket, AdbPacketDispatcher.send. simpl.
  destruct (_ <? _) eqn:Hlt; simpl.
  - eexists _, _. split; [reflexivity |]. simpl. split; [by left |].
    split; [apply elem_of_union_l; by apply elem_of_singleton |].
    split; [apply lookup_insert_eq | done].
  - destruct Hfail as [Hbig | Hrel]; [apply N.ltb_ge in Hlt; lia |].
    rewrite writer_write_released by done. simpl.
    eexists _, _. split; [reflexivity |]. simpl. split; [by right |].
    split; [apply elem_of_union_l; by apply elem_of_singleton |].
    split; [apply lookup_insert_eq | done].
Qed.

Lemma createSocket_unsent_leaves_id_pending_witness :
  ∃ e this',
    AdbPacketDispatcher.createSocket (js "shell:") (AdbPacketDispatcher.new tiny_options)
      = Throw e this'
    ∧ (e = PayloadTooLarge ∨ e = TypeError "writer released")
    ∧ (1 ∈ AsyncOperationManager.pendingResolvers (AdbPacketDispatcher.initializers this'))
    ∧ AsyncOperationManager.promises (AdbPacketDispatcher.initializers this') !! 1
      = Some Pending
    ∧ AsyncOperationManager.nextId (AdbPacketDispatcher.initializers this') = 1 + 1
    ∧ AdbPacketDispatcher._writer this' = Writer.new
    ∧ AdbPacketDispatcher.sockets this' = ∅
    ∧ AdbPacketDispatcher.heap this' = [].
Proof.
  apply (createSocket_unsent_leaves_id_pending (js "shell:")
           (AdbPacketDispatcher.new tiny_options)).
  left. vm_compute. reflexivity.
Defined.

(** ** Errors *)

Section Throwing.
Import AdbPacketDispatcher Evolution.

Lemma Throws_Suspend_inv {A} st p (k : Settlement → t → Task t A) e st' :
  Throws (Suspend st p k) e st' → ∃ o later, Throws (k o later) e st'.
Proof. intros Ht. inversion Ht; subst. eauto. Qed.

Lemma Throws_Throw_inv {A} e0 st0 e st :
  Throws (Throw e0 st0 : Task t A) e st → e = e0 ∧ st = st0.
Proof. intros Ht. by inversion Ht. Qed.

(** What [try { ... } catch (e) { h(e) }] throws, the handler has thrown,
    on an error of the body. *)
Lemma Throws_try_catch {A} (task : Task t A) h e st :
  Throws (try_catch task h) e st →
  ∃ e0 st0, Throws task e0 st0 ∧ Throws (h e0 st0) e st.
Proof.
  induction task as [a st0 | e0 st0 | st0 p k IH]; simpl; intros Ht.
  - inversion Ht.
  - exists e0, st0. split; [constructor | done].
  - apply Throws_Suspend_inv in Ht as (o & later & Hk).
    destruct (IH o later Hk) as (e0 & st2 & H1 & H2).
    exists e0, st2. split; [by econstructor | done].
Qed.
End Throwing.

(** X10: whenever the handler of an inbound packet throws, at once or after
    any of its awaits, the error it throws is the one it has just fired on
    the error event: no error stops the pipe unannounced. *)
Theorem handler_errors_are_fired (packet : AdbPacketData)
    (this : AdbPacketDispatcher.t) (e : JsError) (st : AdbPacketDispatcher.t) :
  Evolution.Throws (AdbPacketDispatcher.dispatch packet this) e st →
  last (AdbPacketDispatcher.errorEvent st) = Some e.
Proof.
  intros Ht. unfold AdbPacketDispatcher.dispatch in Ht.
  apply Throws_try_catch in Ht as (e0 & st0 & _ & Hh).
  apply Throws_Throw_inv in Hh as [-> ->]. simpl. apply last_snoc.
Qed.

Lemma handler_errors_are_fired_witness :
  last (AdbPacketDispatcher.errorEvent
          (AdbPacketDispatcher.fire_errorEvent (TransportError 1) established))
  = Some (TransportError 1).
Proof.
  apply (handler_errors_are_fired close_17_1 established).
  apply (Evolution.Throws_later _ AwaitWrite _ (Rejected (TransportError 1)) established).
  apply Evolution.Throws_now.
Defined.

(** X11: [dispose] does not touch the pending opens: an id that is pending
    is still pending afterwards and its future is still unsettled, so a
    [createSocket] call that waits for the peer's answer is not completed by
    [dispose], neither with a socket nor with an error. *)
Theorem dispose_leaves_pending_opens (this : AdbPacketDispatcher.t) (id : N)
    (o : Settlement) :
  (id ∈ AsyncOperationManager.pendingResolvers (AdbPacketDispatcher.initializers this)) →
  AsyncOperationManager.promises (AdbPacketDispatcher.initializers this) !! id
    = Some Pending →
  AdbPacketDispatcher.initializers (AdbPacketDispatcher.dispose this)
    = AdbPacketDispatcher.initializers this
  ∧ (id ∈ AsyncOperationManager.pendingResolvers
            (AdbPacketDispatcher.initializers (AdbPacketDispatcher.dispose this)))
  ∧ World.settlement (AwaitInitializer id) o (AdbPacketDispatcher.dispose this) = None.
Proof.
  intros Hp Hf.
  assert (AdbPacketDispatcher.initializers (AdbPacketDispatcher.dispose this)
          = AdbPacketDispatcher.initializers this) as Hi.
  { unfold AdbPacketDispatcher.dispose. simpl. apply initializers_dispose_sockets. }
  split; [done |]. split; [by rewrite Hi |].
  unfold World.settlement. by rewrite Hi, Hf.
Qed.

Lemma dispose_leaves_pending_opens_witness :
  AdbPacketDispatcher.initializers (AdbPacketDispatcher.dispose opening)
    = AdbPacketDispatcher.initializers opening
  ∧ (1 ∈ AsyncOperationManager.pendingResolvers
           (AdbPacketDispatcher.initializers (AdbPacketDispatcher.dispose opening)))
  ∧ World.settlement (AwaitInitializer 1) (Fulfilled None)
      (AdbPacketDispatcher.dispose opening) = None.
Proof.
  apply (dispose_leaves_pending_opens opening 1 (Fulfilled None)).
  - vm_compute. reflexivity.
  - reflexivity.
Defined.

(** X12: on every run of a newly constructed dispatcher the id that the
    next [createSocket] or inbound [OPEN] will allocate is new: it is in
    neither table and no future has been made for it, so a local id is never
    given out twice. *)
Theorem next_id_is_fresh
    (options : AdbPacketDispatcherOptions.t) (actions : list World.Action) :
  let this := World.dispatcher (World.run actions (World.new options)) in
  let localId := AsyncOperationManager.nextId (AdbPacketDispatcher.initializers this) in
  (localId
     ∉ AsyncOperationManager.pendingResolvers (AdbPacketDispatcher.initializers this))
  ∧ AdbPacketDispatcher.sockets this !! localId = None
  ∧ AsyncOperationManager.promises (AdbPacketDispatcher.initializers this) !! localId
    = None.
Proof.
  intros this localId.
  destruct (WorldInv_run actions _ (WorldInv_new options)) as [[H1 H2 H3 H4] _].
  fold this in H1, H2, H3, H4.
  unfold Invariant.pending, Invariant.futures, Invariant.nextId in *. fold localId in H3, H4.
  assert (AsyncOperationManager.promises (AdbPacketDispatcher.initializers this) !! localId
          = None) as Hf.
  { destruct (_ !! localId) eqn:E; [| done].
    assert (localId < localId) by (apply H3; rewrite E; eauto). lia. }
  split; [| split; [| done]].
  - intros Hp. apply H2 in Hp. congruence.
  - destruct (AdbPacketDispatcher.sockets this !! localId) eqn:E; [| done].
    assert (localId < localId) by (apply H4; rewrite E; eauto). lia.
Qed.
